(** * Lead quality scorer and enrichment prioritizer

    A shallow embedding of [backend/lead_quality_prioritizer.py]: the field
    normalizer, the five sub-scores and their weighted combination, the
    deduplicator and the budget-constrained prioritizer, followed by the
    properties established about them.

    Modelling conventions.
    - A Python [str] is a [string]; its characters are read as the code
      points 0..255 (the Latin-1 range of Unicode), with Python's own
      [str.isspace], [str.lower] and regular-expression classes on that range.
    - A lead is a Python [dict] from field names to strings: a
      [gmap string string].  [lead.get(k)] is the lookup [lead !! k], whose
      [None] is Python's [None].
    - Python floats are idealised as exact rationals ([Q]); [round] is
      round-half-to-even, as in Python 3.
    - The two optional libraries ([tldextract], [dns.resolver]) are
      parameters of the model: each may be absent, as in the source. *)

From Stdlib Require Import ZArith QArith Qround Qminmax Lia Lqa List Bool Ascii String
  Permutation Sorted.
From stdpp Require Import base option gmap strings.

Local Open Scope string_scope.
Local Open Scope bool_scope.

(** ** Characters *)

Module Chars.

Definition code (c : ascii) : N := N_of_ascii c.

Definition in_range (lo hi : N) (c : ascii) : bool :=
  ((lo <=? code c) && (code c <=? hi))%N.

(** [str.isspace] on code points below 256: TAB..CR, FS..US, SPACE, NEL and
    NBSP.  The class [\s] of [re] on [str] patterns is the same set. *)
Definition is_space (c : ascii) : bool :=
  in_range 9 13 c || in_range 28 32 c || (code c =? 133)%N || (code c =? 160)%N.

Definition is_ascii_upper (c : ascii) : bool := in_range 65 90 c.
Definition is_ascii_lower (c : ascii) : bool := in_range 97 122 c.
Definition is_ascii_letter (c : ascii) : bool := is_ascii_upper c || is_ascii_lower c.
Definition is_digit (c : ascii) : bool := in_range 48 57 c.

(** Upper-case letters of Latin-1: A..Z and U+00C0..U+00DE except the
    multiplication sign U+00D7. *)
Definition is_upper (c : ascii) : bool :=
  is_ascii_upper c || (in_range 192 222 c && negb (code c =? 215)%N).

(** [str.lower] on one character. *)
Definition lower_char (c : ascii) : ascii :=
  if is_upper c then ascii_of_N (code c + 32) else c.

(** The class [\w] of [re] on [str] patterns: alphanumeric or underscore.
    On Latin-1 the alphanumerics are the ASCII ones, the letters
    U+00AA, U+00B5, U+00BA, U+00C0..U+00FF (without the two arithmetic signs
    U+00D7 and U+00F7) and the numerics U+00B2, U+00B3, U+00B9,
    U+00BC..U+00BE. *)
Definition is_word (c : ascii) : bool :=
  is_ascii_letter c || is_digit c || (code c =? 95)%N
  || (code c =? 170)%N || (code c =? 181)%N || (code c =? 186)%N
  || (in_range 192 255 c && negb (code c =? 215)%N && negb (code c =? 247)%N)
  || in_range 178 179 c || (code c =? 185)%N || in_range 188 190 c.

End Chars.

(** ** String operations of Python used by the program *)

Module Str.
Import Chars.

Definition is_empty (s : string) : bool :=
  match s with EmptyString => true | String _ _ => false end.

(** [s.lower()] *)
Fixpoint lower (s : string) : string :=
  match s with
  | EmptyString => EmptyString
  | String c r => String (lower_char c) (lower r)
  end.

(** [s.lstrip()] *)
Fixpoint lstrip (s : string) : string :=
  match s with
  | EmptyString => EmptyString
  | String c r => if is_space c then lstrip r else s
  end.

(** [s.rstrip()] *)
Fixpoint rstrip (s : string) : string :=
  match s with
  | EmptyString => EmptyString
  | String c r =>
      match rstrip r with
      | EmptyString => if is_space c then EmptyString else String c EmptyString
      | r' => String c r'
      end
  end.

(** [s.strip()] *)
Definition strip (s : string) : string := rstrip (lstrip s).

(** [re.sub(r'\s+', ' ', s)]: every maximal run of white space becomes one
    space.  [in_run] tells that the previous character was white space. *)
Fixpoint sub_spaces (in_run : bool) (s : string) : string :=
  match s with
  | EmptyString => EmptyString
  | String c r =>
      if is_space c
      then if in_run then sub_spaces true r else String " " (sub_spaces true r)
      else String c (sub_spaces false r)
  end.

(** [s.split(sep)] for a one-character separator: never the empty list. *)
Fixpoint split (sep : ascii) (s : string) : list string :=
  match s with
  | EmptyString => [EmptyString]
  | String c r =>
      if Ascii.eqb c sep then EmptyString :: split sep r
      else match split sep r with
           | h :: t => String c h :: t
           | [] => [String c EmptyString]
           end
  end.

(** [sep.join(parts)] *)
Fixpoint join (sep : string) (parts : list string) : string :=
  match parts with
  | [] => EmptyString
  | [p] => p
  | p :: rest => p +:+ sep +:+ join sep rest
  end.

(** [parts[-2:]] *)
Fixpoint last_two {A} (l : list A) : list A :=
  match l with
  | _ :: ((_ :: _ :: _) as r) => last_two r
  | _ => l
  end.

(** [c in s] *)
Fixpoint contains (c : ascii) (s : string) : bool :=
  match s with
  | EmptyString => false
  | String a r => Ascii.eqb a c || contains c r
  end.

(** [s.startswith(p)], returning the rest of [s] after [p]. *)
Fixpoint strip_prefix (p s : string) : option string :=
  match p, s with
  | EmptyString, _ => Some s
  | String a p', String b s' => if Ascii.eqb a b then strip_prefix p' s' else None
  | String _ _, EmptyString => None
  end.

Definition startswith (p s : string) : bool :=
  match strip_prefix p s with Some _ => true | None => false end.

(** Keep the characters that satisfy [f] (a [re.sub] deleting the others). *)
Fixpoint keep (f : ascii -> bool) (s : string) : string :=
  match s with
  | EmptyString => EmptyString
  | String c r => if f c then String c (keep f r) else keep f r
  end.

Fixpoint all (f : ascii -> bool) (s : string) : bool :=
  match s with
  | EmptyString => true
  | String c r => f c && all f r
  end.

End Str.

(** ** Field normalizer *)

(** The argument of [normalize] is any Python value: [None], a [str], or an
    object of another type, which the function only reads through [str(x)]. *)
Inductive pyvalue : Type :=
  | PyNone
  | PyStr (s : string)
  | PyObj (shown : string).

Definition py_str (v : pyvalue) : string :=
  match v with
  | PyNone => "None"
  | PyStr s => s
  | PyObj shown => shown
  end.

Definition normalize (v : pyvalue) : string :=
  match v with
  | PyNone => ""
  | _ => Str.lower (Str.sub_spaces false (Str.strip (py_str v)))
  end.

(** ** Regular expressions by derivatives, for [email_syntax_valid] *)

Module Regex.

Inductive re : Type :=
  | Void
  | Eps
  | Class (f : ascii -> bool)
  | Cat (a b : re)
  | Alt (a b : re)
  | Star (a : re).

Definition plus (a : re) : re := Cat a (Star a).

Fixpoint nullable (r : re) : bool :=
  match r with
  | Void => false
  | Eps => true
  | Class _ => false
  | Cat a b => nullable a && nullable b
  | Alt a b => nullable a || nullable b
  | Star _ => true
  end.

Definition cat (a b : re) : re :=
  match a with Void => Void | _ => Cat a b end.

Definition alt (a b : re) : re :=
  match a, b with
  | Void, _ => b
  | _, Void => a
  | _, _ => Alt a b
  end.

Fixpoint deriv (c : ascii) (r : re) : re :=
  match r with
  | Void | Eps => Void
  | Class f => if f c then Eps else Void
  | Cat a b =>
      if nullable a then alt (cat (deriv c a) b) (deriv c b) else cat (deriv c a) b
  | Alt a b => alt (deriv c a) (deriv c b)
  | Star a => cat (deriv c a) (Star a)
  end.

(** The whole string matches [r]. *)
Fixpoint fullmatch (r : re) (s : string) : bool :=
  match s with
  | EmptyString => nullable r
  | String c s' => fullmatch (deriv c r) s'
  end.

End Regex.

(** ** Constants *)

Definition PERSONAL_EMAIL_DOMAINS : list string :=
  [ "gmail.com"; "yahoo.com"; "hotmail.com"; "outlook.com"; "aol.com"; "icloud.com";
    "me.com"; "protonmail.com"; "ymail.com"; "gmx.com" ].

(** Each pattern of the source has the shape [\b(a1|...|an)\b]; it is kept
    as the list of its alternatives, [c[- ]?level] being spelled out as its
    three strings and [vp\b] as [vp] (its own [\b] repeats the closing one). *)
Definition TITLE_KEYWORDS : list (list string * Q) :=
  [ ([ "clevel"; "c-level"; "c level"; "ceo"; "chief executive officer"; "coo";
       "cfo"; "cto"; "chief technology officer"; "chief financial officer";
       "founder"; "co-founder" ], 1.0%Q);
    ([ "president"; "vp"; "vice president"; "vice-president"; "head of"; "head,";
       "head " ], 0.85%Q);
    ([ "director"; "senior director"; "sr director" ], 0.7%Q);
    ([ "manager"; "senior manager"; "mgr" ], 0.5%Q);
    ([ "lead"; "principal" ], 0.6%Q);
    ([ "engineer"; "developer"; "analyst"; "specialist"; "associate" ], 0.3%Q) ].

(** ** Utilities *)

(** A lead: the Python [dict] of its fields. *)
Abbreviation lead := (gmap string string).

(** Truth value of [lead.get(k)]: [None] and [''] are false. *)
Definition truthy (o : option string) : bool :=
  match o with
  | Some (String _ _) => true
  | _ => false
  end.

(** [x or ''] *)
Definition or_empty (o : option string) : string :=
  match o with
  | Some s => s
  | None => ""
  end.

Definition extract_domain_from_email (email : string) : string :=
  if Str.is_empty email then ""
  else
    let email := Str.lower (Str.strip email) in
    match Str.split "@" email with
    | [_; d] => d
    | _ => ""
    end.

(** *** [urllib.parse.urlparse(url).hostname]

    The parser of Python's standard library, on the URLs the program gives
    it, which start with [http://] or [https://].  The model follows
    [urlsplit]: the scheme, the network location up to the first of [/ ? #],
    a [ValueError] on unbalanced brackets, then the host between the user
    information and the port.  Two steps that recent versions of CPython add
    are left out: the deletion of tab, CR and LF from the URL and the
    validation of a bracketed address. *)

(** The result of a Python call that may raise. *)
Inductive outcome (A : Type) : Type :=
  | Returns (a : A)
  | Raises.
Arguments Returns {A} a.
Arguments Raises {A}.

Module Url.
Import Chars.

(** [s.partition(c)[0]] *)
Fixpoint before (c : ascii) (s : string) : string :=
  match s with
  | EmptyString => EmptyString
  | String a r => if Ascii.eqb a c then EmptyString else String a (before c r)
  end.

(** [s.partition(c)[2]], with [None] when [c] does not occur. *)
Fixpoint after (c : ascii) (s : string) : option string :=
  match s with
  | EmptyString => None
  | String a r => if Ascii.eqb a c then Some r else after c r
  end.

(** [s.rpartition(c)[2]] *)
Fixpoint after_last (c : ascii) (s : string) : string :=
  match s with
  | EmptyString => EmptyString
  | String a r =>
      if Str.contains c r then after_last c r
      else if Ascii.eqb a c then r
      else s
  end.

Definition is_scheme_char (c : ascii) : bool :=
  is_ascii_letter c || is_digit c || Ascii.eqb c "+" || Ascii.eqb c "-" || Ascii.eqb c ".".

Definition head_is (f : ascii -> bool) (s : string) : bool :=
  match s with
  | String c _ => f c
  | EmptyString => false
  end.

(** The URL after its scheme, if it has one: a prefix [url[:i]] before the
    first [':'], not empty, starting with a letter and made of scheme
    characters. *)
Definition drop_scheme (url : string) : string :=
  match after ":" url with
  | Some rest =>
      let scheme := before ":" url in
      if head_is is_ascii_letter scheme && Str.all is_scheme_char scheme
      then rest else url
  | None => url
  end.

Definition is_netloc_end (c : ascii) : bool :=
  Ascii.eqb c "/" || Ascii.eqb c "?" || Ascii.eqb c "#".

Fixpoint take_netloc (s : string) : string :=
  match s with
  | EmptyString => EmptyString
  | String a r => if is_netloc_end a then EmptyString else String a (take_netloc r)
  end.

(** [urlsplit(url).netloc]; raises [ValueError] on unbalanced brackets. *)
Definition netloc (url : string) : outcome string :=
  match Str.strip_prefix "//" (drop_scheme url) with
  | Some rest =>
      let n := take_netloc rest in
      if xorb (Str.contains "[" n) (Str.contains "]" n) then Raises else Returns n
  | None => Returns ""
  end.

(** The property [hostname] of the parse result: [None] when it is empty. *)
Definition hostname_of_netloc (n : string) : option string :=
  let hostinfo := after_last "@" n in
  let hostname :=
    match after "[" hostinfo with
    | Some bracketed => before "]" bracketed
    | None => before ":" hostinfo
    end in
  if Str.is_empty hostname then None
  else
    Some (Str.lower (before "%" hostname)
          +:+ match after "%" hostname with
              | Some zone => String "%" zone
              | None => ""
              end).

Definition hostname (url : string) : outcome (option string) :=
  match netloc url with
  | Returns n => Returns (hostname_of_netloc n)
  | Raises => Raises
  end.

End Url.

(** ** Numbers *)

Module Num.
Local Open Scope Q_scope.

(** [round(x)] of Python 3: to the nearest integer, ties to the even one. *)
Definition py_round (x : Q) : Z :=
  let f := Qfloor x in
  match Qcompare (x - inject_Z f) (1 # 2) with
  | Lt => f
  | Gt => (f + 1)%Z
  | Eq => if Z.even f then f else (f + 1)%Z
  end.

(** [round(x, n)] for a number of decimal digits [n]. *)
Definition round_to (n : nat) (x : Q) : Q :=
  py_round (x * inject_Z (10 ^ Z.of_nat n)) # Pos.pow 10 (Pos.of_nat n).

Definition digit_value (c : ascii) : Z := Z.of_N (Chars.code c) - 48.

(** [float(s)] on a string of decimal digits and dots, the only strings the
    program passes to it: the number read, or [None] for [ValueError] (no
    digit at all, or a second dot).  [num / den] is the value read so far. *)
Fixpoint float_of_decimal_aux (s : string) (dot any : bool) (num : Z) (den : positive) :
    option Q :=
  match s with
  | EmptyString => if any then Some (num # den) else None
  | String c r =>
      if Chars.is_digit c
      then float_of_decimal_aux r dot true (10 * num + digit_value c)%Z
             (if dot then (10 * den)%positive else den)
      else if Ascii.eqb c "." then
             if dot then None else float_of_decimal_aux r true any num den
      else None
  end.

Definition float_of_decimal (s : string) : option Q :=
  float_of_decimal_aux s false false 0 1.

End Num.

(** ** Utilities, continued *)

Section Capabilities.

(** [tldextract]: when the library is installed, the registered domain it
    extracts from a host (the empty string when it finds none). *)
Variable tldextract : option (string -> string).

(** [mx_lookup(domain)]: [None] without [dns.resolver], otherwise whether MX
    records were found (any resolver failure being [False]). *)
Variable mx_lookup : string -> option bool.

(** The fall-back of both domain extractions: the last two labels. *)
Definition last_two_labels (host : string) : string :=
  Str.join "." (Str.last_two (Str.split "." host)).

Definition extract_domain_from_url (url : string) : string :=
  if Str.is_empty url then ""
  else
    let url := Str.strip url in
    if Str.is_empty url then ""
    else
      let url :=
        if Str.startswith "http://" url || Str.startswith "https://" url
        then url else "http://" +:+ url in
      let host :=
        match Url.hostname url with
        | Returns (Some h) => h
        | Returns None => ""
        | Raises => ""
        end in
      let host := Str.lower host in
      let fallback :=
        let parts := Str.split "." host in
        if (2 <=? List.length parts)%nat then Str.join "." (Str.last_two parts) else host in
      match tldextract with
      | Some registered_domain =>
          if Str.is_empty (registered_domain host) then fallback
          else registered_domain host
      | None => fallback
      end.

Definition email_pattern : Regex.re :=
  let local := fun c => Chars.is_ascii_letter c || Chars.is_digit c
                        || Str.contains c "._%+-" in
  let host := fun c => Chars.is_ascii_letter c || Chars.is_digit c
                       || Str.contains c ".-" in
  Regex.Cat (Regex.plus (Regex.Class local))
    (Regex.Cat (Regex.Class (Ascii.eqb "@"))
       (Regex.Cat (Regex.plus (Regex.Class host))
          (Regex.Cat (Regex.Class (Ascii.eqb "."))
             (Regex.Cat (Regex.Class Chars.is_ascii_letter)
                (Regex.plus (Regex.Class Chars.is_ascii_letter)))))).

Definition email_syntax_valid (email : string) : bool :=
  if Str.is_empty email then false
  else Regex.fullmatch email_pattern (Str.strip email).

Definition is_personal_email_domain (domain : string) : bool :=
  if Str.is_empty domain then false
  else bool_decide (Str.lower domain ∈ PERSONAL_EMAIL_DOMAINS).

(** ** Scoring components *)

Local Open Scope Q_scope.

Definition completeness_score (l : lead) : Q :=
  let score := 0.0 in
  let score := score + (if truthy (l !! "email") then 1.0 else 0.0) in
  let score := score + (if truthy (l !! "phone") then 0.6 else 0.0) in
  let score := score + (if truthy (l !! "linkedin_url") then 0.6 else 0.0) in
  let score := score + (if truthy (l !! "company_domain") || truthy (l !! "company_name")
                        then 0.8 else 0.0) in
  Qmin (score / 3.0) 1.0.

(** *** [re.search] of a title pattern *)

Definition is_word_at (o : option ascii) : bool :=
  match o with
  | Some c => Chars.is_word c
  | None => false
  end.

(** [\b] between two neighbouring positions ([None] beyond either end). *)
Definition boundary (prev next : option ascii) : bool :=
  xorb (is_word_at prev) (is_word_at next).

Definition head (s : string) : option ascii :=
  match s with
  | String c _ => Some c
  | EmptyString => None
  end.

Fixpoint last_char (prev : option ascii) (s : string) : option ascii :=
  match s with
  | EmptyString => prev
  | String c r => last_char (Some c) r
  end.

(** The alternative [lit] followed by [\b], read at the start of [s]. *)
Definition alternative_at (prev : option ascii) (s lit : string) : bool :=
  match Str.strip_prefix lit s with
  | Some rest => boundary (last_char prev lit) (head rest)
  | None => false
  end.

(** Some position of the text matches [\b(alts)\b]; [prev] is the character
    before [s]. *)
Fixpoint search (alts : list string) (prev : option ascii) (s : string) : bool :=
  (boundary prev (head s) && existsb (alternative_at prev s) alts)
  || match s with
     | EmptyString => false
     | String c r => search alts (Some c) r
     end.

Definition seniority_score (job_title : option string) : Q :=
  match job_title with
  | Some (String _ _ as job_title) =>
      let title := normalize (PyStr job_title) in
      fold_left
        (fun best '(alts, val) => if search alts None title then Qmax best val else best)
        TITLE_KEYWORDS 0.0
  | _ => 0.0
  end.

Definition domain_match_score (l : lead) : Q :=
  let email := l !! "email" in
  let cdom := or_empty (l !! "company_domain") in
  if negb (truthy email) || Str.is_empty cdom then 0.0
  else
    let ed := extract_domain_from_email (or_empty email) in
    let cd := normalize (PyStr cdom) in
    let ed_r := if Str.contains "@" ed then extract_domain_from_email ed else ed in
    let '(e_reg, c_reg) :=
      match tldextract with
      | Some registered_domain =>
          (if Str.is_empty (registered_domain ed_r) then ed_r else registered_domain ed_r,
           if Str.is_empty (registered_domain cd) then cd else registered_domain cd)
      | None =>
          (if Str.is_empty ed_r then "" else last_two_labels ed_r,
           if Str.is_empty cd then "" else last_two_labels cd)
      end in
    if Str.is_empty e_reg || Str.is_empty c_reg then 0.0
    else if String.eqb e_reg c_reg then 1.0 else 0.0.

Definition is_digit_or_dot (c : ascii) : bool :=
  Chars.is_digit c || Ascii.eqb c ".".

(** The first step of [company_signal_score]: the reward for an e-mail
    address whose domain is not a personal one. *)
Definition email_signal (l : lead) : Q :=
  match l !! "email" with
  | Some (String _ _ as email) =>
      let d := extract_domain_from_email email in
      if negb (is_personal_email_domain d) then 0.6 else 0.0
  | _ => 0.0
  end.

(** Its second step: what [estimated_revenue] adds, the cap [1e7] being
    written out; a [ValueError] of [float] is swallowed by the [try]. *)
Definition revenue_signal (l : lead) : Q :=
  match l !! "estimated_revenue" with
  | Some (String _ _ as rev) =>
      match Num.float_of_decimal (Str.keep is_digit_or_dot rev) with
      | Some v =>
          let v := Qmin v 10000000 in
          (v / 10000000) * 0.4
      | None => 0.0
      end
  | _ => 0.0
  end.

Definition company_signal_score (l : lead) : Q :=
  let score := 0.0 in
  let score := score + email_signal l in
  let score := score + revenue_signal l in
  Qmin score 1.0.

(** [mx_check] is [True], [False] or [None]. *)
Definition email_validity_score (l : lead) (mx_check : option bool) : Q :=
  let score := 0.0 in
  match l !! "email" with
  | Some (String _ _ as email) =>
      let score := if email_syntax_valid email then score + 0.6 else score in
      let d := extract_domain_from_email email in
      let score :=
        if negb (Str.is_empty d) && negb (is_personal_email_domain d)
        then score + 0.3 else score in
      let score :=
        match mx_check with
        | Some true =>
            match mx_lookup d with
            | Some true => score + 0.1
            | _ => score
            end
        | None => score
        | Some false => score
        end in
      Qmin score 1.0
  | _ => 0.0
  end.

Definition WEIGHTS : gmap string Q :=
  {[ "completeness" := 0.30; "seniority" := 0.30; "email_validity" := 0.20;
     "domain_match" := 0.10; "company_signal" := 0.10 ]}.

Definition weight (k : string) : Q := default 0 (WEIGHTS !! k).

(** The weighted sum [raw] of [compute_lead_score]. *)
Definition raw_weighted (l : lead) (mx_check : option bool) : Q :=
  let c := completeness_score l in
  let s := seniority_score (l !! "job_title") in
  let e := email_validity_score l mx_check in
  let d := domain_match_score l in
  let cs := company_signal_score l in
  weight "completeness" * c + weight "seniority" * s + weight "email_validity" * e
  + weight "domain_match" * d + weight "company_signal" * cs.

Definition compute_lead_score (l : lead) (mx_check : option bool) : Z * gmap string Q :=
  let c := completeness_score l in
  let s := seniority_score (l !! "job_title") in
  let e := email_validity_score l mx_check in
  let d := domain_match_score l in
  let cs := company_signal_score l in
  let raw := raw_weighted l mx_check in
  let score := Num.py_round (raw * 100) in
  let breakdown : gmap string Q :=
    {[ "completeness" := Num.round_to 3 c; "seniority" := Num.round_to 3 s;
       "email_validity" := Num.round_to 3 e; "domain_match" := Num.round_to 3 d;
       "company_signal" := Num.round_to 3 cs; "raw_weighted" := Num.round_to 4 raw ]} in
  (score, breakdown).

End Capabilities.

(** ** Deduplication *)

(** A Python [dict] read in insertion order: an association list without
    repeated keys, a new key going to the end and an assignment to a key
    already there keeping its place. *)
Module OrderedDict.
Section Dict.
Context {K V : Type} `{EqDecision K}.

Fixpoint get (k : K) (d : list (K * V)) : option V :=
  match d with
  | [] => None
  | (k', v) :: r => if decide (k' = k) then Some v else get k r
  end.

(** [d[k] = v] *)
Fixpoint set (k : K) (v : V) (d : list (K * V)) : list (K * V) :=
  match d with
  | [] => [(k, v)]
  | (k', v') :: r => if decide (k' = k) then (k, v) :: r else (k', v') :: set k v r
  end.

(** [list(d.values())] *)
Definition values (d : list (K * V)) : list V := map snd d.

Definition keys (d : list (K * V)) : list K := map fst d.
End Dict.
End OrderedDict.

(** On a lead whose values are strings, [v not in (None, '', [])] says that
    [v] is not the empty string. *)
Definition count_nonempty_fields (l : lead) : nat :=
  map_fold (fun (k v : string) (c : nat) => if Str.is_empty v then c else S c) 0%nat l.

(** The body shared by the two loops of [dedupe_leads]: the first record of
    a key stays unless a later one has strictly more filled fields. *)
Definition keep_richer {K : Type} `{EqDecision K}
    (key : K) (L : lead) (d : list (K * lead)) : list (K * lead) :=
  match OrderedDict.get key d with
  | None => OrderedDict.set key L d
  | Some existing =>
      if (count_nonempty_fields existing <? count_nonempty_fields L)%nat
      then OrderedDict.set key L d
      else d
  end.

Definition email_key (L : lead) : string :=
  normalize (PyStr (or_empty (L !! "email"))).

Definition name_dom_key (L : lead) : string * string :=
  let name :=
    normalize (PyStr (if truthy (L !! "full_name") then or_empty (L !! "full_name")
                      else default "" (L !! "first_name") +:+ " "
                           +:+ default "" (L !! "last_name"))) in
  let dom := normalize (PyStr (or_empty (L !! "company_domain"))) in
  (name, dom).

(** One turn of the first loop, on the dictionary [by_email] and the list
    [no_email]. *)
Definition split_step (st : list (string * lead) * list lead) (L : lead) :
    list (string * lead) * list lead :=
  let '(by_email, no_email) := st in
  let email := email_key L in
  if negb (Str.is_empty email) then (keep_richer email L by_email, no_email)
  else (by_email, (no_email ++ [L])%list).

(** The first loop. *)
Definition split_by_email (leads : list lead) : list (string * lead) * list lead :=
  fold_left split_step leads ([], []).

(** The second loop: the dictionary [by_name_dom]. *)
Definition group_by_name_dom (no_email : list lead) : list (string * string * lead) :=
  fold_left (fun by_name_dom L => keep_richer (name_dom_key L) L by_name_dom) no_email [].

Definition dedupe_leads (leads : list lead) : list lead :=
  let '(by_email, no_email) := split_by_email leads in
  let by_name_dom := group_by_name_dom no_email in
  (OrderedDict.values by_email ++ OrderedDict.values by_name_dom)%list.

(** ** Prioritization *)

(** A scored record: the lead with the two entries that scoring adds to its
    dictionary; [None] stands for an absent entry. *)
Record scored_lead : Type := {
  fields : lead;
  score : option Z;
  score_breakdown : option (gmap string Q)
}.

(** [x.get('score', 0)] *)
Definition score_key (x : scored_lead) : Z := default 0%Z (score x).

(** [sorted(leads, key=..., reverse=True)]: Python's sort is stable, also
    when reversed.  It is modelled by a stable insertion sort: a record goes
    before the first record whose key is not larger. *)
Fixpoint insert_desc (x : scored_lead) (l : list scored_lead) : list scored_lead :=
  match l with
  | [] => [x]
  | y :: r =>
      if (score_key x <? score_key y)%Z then y :: insert_desc x r else x :: y :: r
  end.

Definition sorted_desc (l : list scored_lead) : list scored_lead :=
  fold_right insert_desc [] l.

(** The selection loop, [budget] being what is left of the credits. *)
Fixpoint select (budget per_cost : Z) (sorted_leads : list scored_lead) : list scored_lead :=
  match sorted_leads with
  | [] => []
  | x :: rest =>
      if (per_cost <=? budget)%Z then x :: select (budget - per_cost) per_cost rest
      else []
  end.

Definition prioritize (leads_scored : list scored_lead) (credits cost_per_enrich : Z) :
    list scored_lead :=
  select credits cost_per_enrich (sorted_desc leads_scored).

(** ** Reading, scoring and writing batches *)

(** A dictionary in the order of its entries, as [L.items()] gives them: the
    row of a CSV file or of a data frame, whose values are strings. *)
Abbreviation row := (list (string * string)).

(** [{k.lower(): v for k, v in L.items()}]: of two columns that differ in
    case only, the later one stays. *)
Definition lower_keys (L : row) : lead :=
  fold_left (fun (m : lead) '(k, v) => <[Str.lower k := v]> m) L ∅.

(** The fields that [score_leads] and [process_file] make sure of. *)
Definition SCORED_FIELDS : list string :=
  [ "email"; "job_title"; "company_domain"; "linkedin_url"; "phone";
    "estimated_revenue"; "first_name"; "last_name"; "full_name" ].

(** [for k in [...]: if k not in lead: lead[k] = ''] *)
Definition with_default_fields (l : lead) : lead :=
  fold_left
    (fun (m : lead) k => match m !! k with Some _ => m | None => <[k := ""]> m end)
    SCORED_FIELDS l.

Section Batches.
Variable tldextract : option (string -> string).
Variable mx_lookup : string -> option bool.

(** The body of the loop of [score_leads], which is also that of
    [process_file].  The entries [score] and [score_breakdown] that it
    assigns replace a column of that name. *)
Definition score_one (mx_check : option bool) (L : row) : scored_lead :=
  let lead := with_default_fields (lower_keys L) in
  let '(score, breakdown) := compute_lead_score tldextract mx_lookup lead mx_check in
  {| fields := delete "score_breakdown" (delete "score" lead);
     score := Some score;
     score_breakdown := Some breakdown |}.


End Batches.

(** [read_csv_to_dicts], after the file is parsed: each row of the reader
    with its keys and values stripped, *)
Definition strip_row (items : row) : lead :=
  fold_left (fun (m : lead) '(k, v) => <[Str.strip k := Str.strip v]> m) items ∅.

(** then the two alternative column names taken over when the usual ones
    are missing or empty. *)
Definition unify_columns (r : lead) : lead :=
  let r :=
    if bool_decide (is_Some (r !! "website")) && negb (truthy (r !! "company_domain"))
    then <["company_domain" := or_empty (r !! "website")]> r else r in
  let r :=
    if bool_decide (is_Some (r !! "full name")) && negb (truthy (r !! "full_name"))
    then <["full_name" := or_empty (r !! "full name")]> r else r in
  r.

Definition rows_of_reader (reader : list row) : list lead :=
  map (fun items => unify_columns (strip_row items)) reader.

(** The header that [write_dicts_to_csv] computes when it is given none: the
    keys of the rows, each at its first occurrence.  A row is given by
    [r.keys()]. *)
Definition add_key (keys : list string) (k : string) : list string :=
  if bool_decide (k ∈ keys) then keys else (keys ++ [k])%list.

Definition union_of_keys (rows : list (list string)) : list string :=
  fold_left (fun keys r => fold_left add_key r keys) rows [].

(** ** The language of a regular expression

    What it means for a string to match, against which the derivative
    matcher of [Regex] is checked. *)
Inductive matches : Regex.re -> string -> Prop :=
  | M_eps : matches Regex.Eps ""
  | M_class (f : ascii -> bool) (c : ascii) :
      f c = true -> matches (Regex.Class f) (String c "")
  | M_cat (a b : Regex.re) (s1 s2 : string) :
      matches a s1 -> matches b s2 -> matches (Regex.Cat a b) (s1 +:+ s2)
  | M_alt_l (a b : Regex.re) (s : string) : matches a s -> matches (Regex.Alt a b) s
  | M_alt_r (a b : Regex.re) (s : string) : matches b s -> matches (Regex.Alt a b) s
  | M_star_nil (a : Regex.re) : matches (Regex.Star a) ""
  | M_star_app (a : Regex.re) (s1 s2 : string) :
      matches a s1 -> matches (Regex.Star a) s2 -> matches (Regex.Star a) (s1 +:+ s2).

(** The three character classes of the e-mail pattern. *)
Definition is_local_char (c : ascii) : bool :=
  Chars.is_ascii_letter c || Chars.is_digit c || Str.contains c "._%+-".

Definition is_host_char (c : ascii) : bool :=
  Chars.is_ascii_letter c || Chars.is_digit c || Str.contains c ".-".

(** ** Predicates and inputs of the statements *)

(** No white space in front. *)
Definition starts_clean (s : string) : bool :=
  match s with
  | String c _ => negb (Chars.is_space c)
  | EmptyString => true
  end.

(** A character that a bare host name can hold: no white space and none of
    the characters that delimit the parts of a URL. *)
Definition plain_host_char (c : ascii) : bool :=
  negb (Chars.is_space c) && negb (Str.contains c "/?#@[]:%").

Definition plain_host (s : string) : bool := Str.all plain_host_char s.

(** A character that [str.lower] leaves as it is. *)
Definition is_lowered (c : ascii) : bool := Ascii.eqb (Chars.lower_char c) c.

(** One loop of [dedupe_leads] over the records [xs], from the dictionary
    [d], for either key. *)
Definition group {K : Type} `{EqDecision K} (key : lead -> K)
    (xs : list lead) (d : list (K * lead)) : list (K * lead) :=
  fold_left (fun d L => keep_richer (key L) L d) xs d.

(** Every record sits under its own key, and no key comes twice. *)
Definition well_keyed {K : Type} (key : lead -> K) (d : list (K * lead)) : Prop :=
  Forall (fun e => fst e = key (snd e)) d /\ List.NoDup (OrderedDict.keys d).

(** The test of the first loop: the normalized e-mail is not empty. *)
Definition has_email_b (L : lead) : bool := negb (Str.is_empty (email_key L)).

(** The two sides of the first loop's test. *)
Definition has_email (L : lead) : Prop := Str.is_empty (email_key L) = false.
Definition lacks_email (L : lead) : Prop := Str.is_empty (email_key L) = true.

(** Scores do not increase from left to right. *)
Definition score_desc (a b : scored_lead) : Prop := (score_key b <= score_key a)%Z.

Definition has_score (k : Z) (x : scored_lead) : bool := (score_key x =? k)%Z.


(** Keys and values without white space around them. *)
Definition stripped (m : lead) : Prop :=
  forall k v, m !! k = Some v -> Str.strip k = k /\ Str.strip v = v.

Definition lead_without_email : lead :=
  {[ "job_title" := "Founder"; "phone" := "555-0100"; "linkedin_url" := "in/ada";
     "company_name" := "Engines Ltd"; "estimated_revenue" := "25000000" ]}.

(** Among the records [xs], [v] is the first of the richest of its key: no
    record of that key before it has as many filled fields, and none after it
    has more. *)
Definition first_richest {K : Type} (key : lead -> K) (xs : list lead) (v : lead) : Prop :=
  exists pre post : list lead,
    xs = (pre ++ v :: post)%list
    /\ (forall L, In L pre -> key L = key v ->
        (count_nonempty_fields L < count_nonempty_fields v)%nat)
    /\ (forall L, In L post -> key L = key v ->
        (count_nonempty_fields L <= count_nonempty_fields v)%nat).

(** What the grouping loop has established after the records [p]: every
    entry of the dict is the first of the richest of its key among [p], and
    a key without an entry has no record in [p]. *)
Definition grouped {K : Type} `{EqDecision K} (key : lead -> K)
    (p : list lead) (d : list (K * lead)) : Prop :=
  (forall k v, OrderedDict.get k d = Some v -> key v = k /\ first_richest key p v)
  /\ (forall k, OrderedDict.get k d = None -> forall L, In L p -> key L <> k).

(** The group of a record in [dedupe_leads]: its normalized e-mail, and for
    a record without one its normalized name and company domain. *)
Definition dedupe_key (L : lead) : string * (string * string) :=
  (email_key L, if has_email_b L then ("", "") else name_dom_key L).

(** The inputs of the scenarios. *)

Definition no_mx : string -> option bool := fun _ => None.

Definition lead_bob : lead := {[ "email" := "bob@gmail.com" ]}.

Definition lead_empty : lead := ∅.

Definition lead_no_local_part : lead := {[ "email" := "@acme.com" ]}.

Definition lead_no_domain : lead := {[ "email" := "bob" ]}.

Definition lead_large_revenue : lead := {[ "estimated_revenue" := "$12,500,000.00" ]}.



Definition lead_jane : lead :=
  {[ "email" := "jane@acme.com"; "job_title" := "CEO"; "company_domain" := "acme.com";
     "phone" := "555-1234"; "linkedin_url" := "in/jane" ]}.

Definition lead_ann : lead := {[ "email" := "ann@acme.com"; "phone" := "555-0101" ]}.

Definition lead_bo : lead := {[ "full_name" := "Bo Li"; "company_domain" := "x.org" ]}.

Definition lead_cy : lead := {[ "email" := "cy@acme.com" ]}.

(** Two rows of a file whose header spells its columns with capitals. *)
Definition lead_capitals_1 : lead := {[ "Email" := "ann@acme.com"; "Name" := "Ann" ]}.

Definition lead_capitals_2 : lead := {[ "Email" := "cy@acme.com"; "Name" := "Cy" ]}.

(** A row of a file whose header is in capitals. *)
Definition row_capitals : row :=
  [ ("Email", "jane@acme.com"); ("Job_Title", "CEO"); ("COMPANY_DOMAIN", "acme.com") ].

Definition scored (name : string) (s : Z) : scored_lead :=
  {| fields := {[ "full_name" := name ]}; score := Some s; score_breakdown := None |}.

(** * Properties *)

(** ** Characters and strings *)

Ltac each_char c := destruct c as [[] [] [] [] [] [] [] []].

Lemma is_space_lower_char (c : ascii) :
  Chars.is_space (Chars.lower_char c) = Chars.is_space c.
Proof. each_char c; reflexivity. Qed.

Lemma lower_char_idem (c : ascii) :
  Chars.lower_char (Chars.lower_char c) = Chars.lower_char c.
Proof. each_char c; reflexivity. Qed.

Lemma lower_idem (s : string) : Str.lower (Str.lower s) = Str.lower s.
Proof.
  induction s as [|c s IH]; simpl; [reflexivity|].
  now rewrite lower_char_idem, IH.
Qed.

Lemma lstrip_lower (s : string) : Str.lstrip (Str.lower s) = Str.lower (Str.lstrip s).
Proof.
  induction s as [|c s IH]; simpl; [reflexivity|].
  rewrite is_space_lower_char. destruct (Chars.is_space c); [exact IH | reflexivity].
Qed.

Lemma rstrip_lower (s : string) : Str.rstrip (Str.lower s) = Str.lower (Str.rstrip s).
Proof.
  induction s as [|c s IH]; simpl; [reflexivity|].
  rewrite IH, is_space_lower_char.
  destruct (Str.rstrip s); simpl; [destruct (Chars.is_space c)|]; reflexivity.
Qed.

Lemma strip_lower (s : string) : Str.strip (Str.lower s) = Str.lower (Str.strip s).
Proof. unfold Str.strip. now rewrite lstrip_lower, rstrip_lower. Qed.

Lemma sub_spaces_lower (b : bool) (s : string) :
  Str.sub_spaces b (Str.lower s) = Str.lower (Str.sub_spaces b s).
Proof.
  revert b. induction s as [|c s IH]; intros b; simpl; [reflexivity|].
  rewrite is_space_lower_char.
  destruct (Chars.is_space c); [destruct b|]; simpl; now rewrite IH.
Qed.

Lemma sub_spaces_idem (b : bool) (s : string) :
  Str.sub_spaces b (Str.sub_spaces b s) = Str.sub_spaces b s.
Proof.
  revert b. induction s as [|c s IH]; intros b; simpl; [reflexivity|].
  destruct (Chars.is_space c) eqn:Hc.
  - destruct b; [apply IH|]. simpl. now rewrite IH.
  - simpl. now rewrite Hc, IH.
Qed.

Lemma starts_clean_lstrip (s : string) : starts_clean (Str.lstrip s) = true.
Proof.
  induction s as [|c s IH]; simpl; [reflexivity|].
  destruct (Chars.is_space c) eqn:Hc; [exact IH|]. simpl. now rewrite Hc.
Qed.

Lemma lstrip_clean (s : string) : starts_clean s = true -> Str.lstrip s = s.
Proof.
  destruct s as [|c s]; simpl; [reflexivity|].
  now destruct (Chars.is_space c).
Qed.

Lemma starts_clean_rstrip (s : string) :
  starts_clean s = true -> starts_clean (Str.rstrip s) = true.
Proof.
  destruct s as [|c s]; simpl; [reflexivity|].
  destruct (Chars.is_space c) eqn:Hc; [discriminate|]. intros _.
  destruct (Str.rstrip s); simpl; now rewrite Hc.
Qed.

Lemma starts_clean_sub_spaces (s : string) :
  starts_clean s = true -> starts_clean (Str.sub_spaces false s) = true.
Proof.
  destruct s as [|c s]; simpl; [reflexivity|].
  destruct (Chars.is_space c) eqn:Hc; simpl; [discriminate|]. now rewrite Hc.
Qed.

Lemma rstrip_idem (s : string) : Str.rstrip (Str.rstrip s) = Str.rstrip s.
Proof.
  induction s as [|c s IH]; simpl; [reflexivity|].
  destruct (Str.rstrip s) as [|a r] eqn:Hr.
  - destruct (Chars.is_space c) eqn:Hc; simpl; [reflexivity|]. now rewrite Hc.
  - change (Str.rstrip (String c (String a r))) with
      (match Str.rstrip (String a r) with
       | EmptyString => if Chars.is_space c then EmptyString else String c EmptyString
       | r' => String c r'
       end).
    now rewrite IH.
Qed.

Lemma rstrip_empty_sub_spaces (b : bool) (s : string) :
  Str.sub_spaces b s = EmptyString -> Str.rstrip s = EmptyString.
Proof.
  revert b. induction s as [|c s IH]; intros b; simpl; [reflexivity|].
  destruct (Chars.is_space c) eqn:Hc; [|discriminate].
  destruct b; [|discriminate]. intros H. now rewrite (IH true H).
Qed.

(** Collapsing the white space of a string that has none at its end leaves
    none at the end. *)
Lemma rstrip_sub_spaces (b : bool) (s : string) :
  Str.rstrip s = s -> Str.rstrip (Str.sub_spaces b s) = Str.sub_spaces b s.
Proof.
  revert b. induction s as [|c s IH]; intros b; simpl; [reflexivity|].
  destruct (Str.rstrip s) as [|a r] eqn:Hr.
  - destruct (Chars.is_space c) eqn:Hc; [discriminate|].
    intros [= <-]. simpl. now rewrite Hc.
  - intros [= Hs]. subst s.
    assert (Hne : forall b', Str.sub_spaces b' (String a r) <> EmptyString).
    { intros b' H. apply rstrip_empty_sub_spaces in H.
      rewrite Hr in H. discriminate. }
    assert (Hcons : forall x t, t <> EmptyString -> Str.rstrip t = t ->
                                Str.rstrip (String x t) = String x t).
    { intros x t Ht Hrt. simpl. rewrite Hrt. destruct t; [congruence | reflexivity]. }
    destruct (Chars.is_space c) eqn:Hc.
    + destruct b.
      * apply IH. reflexivity.
      * apply Hcons; [apply Hne | apply IH; reflexivity].
    + apply Hcons; [apply Hne | apply IH; reflexivity].
Qed.

(** ** The normalizer *)

Lemma normalize_str_fixed (s : string) :
  normalize (PyStr (normalize (PyStr s))) = normalize (PyStr s).
Proof.
  unfold normalize, py_str.
  set (t := Str.strip s).
  assert (Hstart : starts_clean t = true).
  { apply starts_clean_rstrip, starts_clean_lstrip. }
  assert (Hend : Str.rstrip t = t) by apply rstrip_idem.
  set (u := Str.sub_spaces false t).
  assert (Hu : Str.strip u = u).
  { unfold Str.strip. rewrite lstrip_clean by now apply starts_clean_sub_spaces.
    now apply rstrip_sub_spaces. }
  rewrite strip_lower, Hu, sub_spaces_lower.
  unfold u at 1. rewrite sub_spaces_idem. apply lower_idem.
Qed.

(** C9.  [normalize] is idempotent: for every Python value [x] ([None], a
    string, or an object of another type read through [str(x)]),
    [normalize(normalize(x)) == normalize(x)]. *)
Theorem normalize_idempotent (x : pyvalue) :
  normalize (PyStr (normalize x)) = normalize x.
Proof.
  destruct x as [|s|shown].
  - reflexivity.
  - apply normalize_str_fixed.
  - apply (normalize_str_fixed shown).
Qed.

(** ** Rounding and parsing *)

Local Open Scope Q_scope.

(** [round(x)] is within one half of [x]. *)
Lemma py_round_near (x : Q) :
  inject_Z (Num.py_round x) - (1 # 2) <= x <= inject_Z (Num.py_round x) + (1 # 2).
Proof.
  unfold Num.py_round.
  pose proof (Qfloor_le x) as Hlo. pose proof (Qlt_floor x) as Hhi.
  rewrite inject_Z_plus in Hhi. change (inject_Z 1) with 1 in Hhi.
  destruct (Qcompare_spec (x - inject_Z (Qfloor x)) (1 # 2)) as [He|Hl|Hg].
  - destruct (Z.even (Qfloor x)).
    + lra.
    + rewrite inject_Z_plus. change (inject_Z 1) with 1. lra.
  - lra.
  - rewrite inject_Z_plus. change (inject_Z 1) with 1. lra.
Qed.

Lemma py_round_range (x : Q) (lo hi : Z) :
  inject_Z lo <= x <= inject_Z hi -> (lo <= Num.py_round x <= hi)%Z.
Proof.
  intros [Hlo Hhi]. destruct (py_round_near x) as [H1 H2].
  assert (Ha : inject_Z lo < inject_Z (Num.py_round x + 1)).
  { rewrite inject_Z_plus. change (inject_Z 1) with 1. lra. }
  assert (Hb : inject_Z (Num.py_round x) < inject_Z (hi + 1)).
  { rewrite inject_Z_plus. change (inject_Z 1) with 1. lra. }
  rewrite <- Zlt_Qlt in Ha, Hb. lia.
Qed.

Lemma digit_value_nonneg (c : ascii) :
  Chars.is_digit c = true -> (0 <= Num.digit_value c)%Z.
Proof.
  unfold Chars.is_digit, Chars.in_range, Num.digit_value.
  rewrite andb_true_iff, !N.leb_le. lia.
Qed.

Lemma float_of_decimal_aux_nonneg (s : string) :
  forall dot any num den v,
    (0 <= num)%Z -> Num.float_of_decimal_aux s dot any num den = Some v -> 0 <= v.
Proof.
  induction s as [|c s IH]; intros dot any num den v Hnum; simpl.
  - destruct any; [|discriminate]. intros [= <-].
    unfold Qle. simpl. lia.
  - destruct (Chars.is_digit c) eqn:Hd.
    + apply IH. pose proof (digit_value_nonneg c Hd). lia.
    + destruct (Ascii.eqb c "."); [|discriminate].
      destruct dot; [discriminate|]. now apply IH.
Qed.

Lemma float_of_decimal_nonneg (s : string) (v : Q) :
  Num.float_of_decimal s = Some v -> 0 <= v.
Proof. apply float_of_decimal_aux_nonneg. lia. Qed.

(** ** Range of the sub-scores *)

(** The closing [min(score, 1.0)] of a sub-score. *)
Lemma capped_range (a : Q) : 0 <= a -> 0 <= Qmin a 1.0 <= 1.
Proof.
  intros Ha. pose proof (Q.le_min_r a 1.0). split; [|lra].
  apply Q.min_glb; lra.
Qed.

Lemma completeness_score_range (l : lead) : 0 <= completeness_score l <= 1.
Proof.
  unfold completeness_score. apply capped_range.
  destruct (truthy (l !! "email")), (truthy (l !! "phone")),
    (truthy (l !! "linkedin_url")),
    (truthy (l !! "company_domain") || truthy (l !! "company_name"))%bool;
    vm_compute; discriminate.
Qed.

Lemma seniority_fold_range (title : string) (table : list (list string * Q)) :
  Forall (fun p => 0 <= snd p <= 1) table ->
  forall best, 0 <= best <= 1 ->
    0 <= fold_left
           (fun best '(alts, val) => if search alts None title then Qmax best val else best)
           table best <= 1.
Proof.
  induction 1 as [|[alts val] table [Hv0 Hv1] _ IH]; intros best [Hb0 Hb1]; simpl.
  - now split.
  - apply IH. destruct (search alts None title); [|now split].
    simpl in Hv0, Hv1. split.
    + apply Qle_trans with best; [assumption | apply Q.le_max_l].
    + now apply Q.max_lub.
Qed.

Lemma TITLE_KEYWORDS_range : Forall (fun p => 0 <= snd p <= 1) TITLE_KEYWORDS.
Proof. repeat constructor; simpl; vm_compute; discriminate. Qed.

Lemma seniority_score_range (job_title : option string) :
  0 <= seniority_score job_title <= 1.
Proof.
  unfold seniority_score. destruct job_title as [[|c s]|]; try lra.
  apply seniority_fold_range; [apply TITLE_KEYWORDS_range | lra].
Qed.

Lemma email_validity_score_range mx_lookup (l : lead) (mx_check : option bool) :
  0 <= email_validity_score mx_lookup l mx_check <= 1.
Proof.
  unfold email_validity_score. destruct (l !! "email") as [[|c s]|]; try lra.
  apply capped_range.
  destruct (email_syntax_valid _), (negb _ && negb _)%bool, mx_check as [[]|];
    try destruct (mx_lookup _) as [[]|]; vm_compute; discriminate.
Qed.

Lemma domain_match_score_values tldextract (l : lead) :
  domain_match_score tldextract l = 0.0 \/ domain_match_score tldextract l = 1.0.
Proof.
  unfold domain_match_score.
  destruct (negb _ || _)%bool; [now left|].
  destruct tldextract as [f|]; simpl;
    (destruct (_ || _)%bool; [now left|]);
    (destruct (String.eqb _ _); [now right | now left]).
Qed.

Lemma domain_match_score_range tldextract (l : lead) :
  0 <= domain_match_score tldextract l <= 1.
Proof. destruct (domain_match_score_values tldextract l) as [-> | ->]; lra. Qed.

Lemma email_signal_values (l : lead) : email_signal l = 0.0 \/ email_signal l = 0.6.
Proof.
  unfold email_signal. destruct (l !! "email") as [[|c s]|]; auto.
  destruct (negb _); auto.
Qed.

Lemma revenue_signal_range (l : lead) : 0 <= revenue_signal l <= 0.4.
Proof.
  unfold revenue_signal. destruct (l !! "estimated_revenue") as [[|c s]|]; try lra.
  destruct (Num.float_of_decimal _) as [v|] eqn:Hv; [|lra].
  apply float_of_decimal_nonneg in Hv.
  pose proof (Q.le_min_r v 10000000) as Hmax.
  assert (Hmin : 0 <= Qmin v 10000000) by (apply Q.min_glb; lra).
  set (m := Qmin v 10000000) in *. unfold Qdiv. change (/ 10000000) with (1 # 10000000).
  lra.
Qed.

Lemma company_signal_score_range (l : lead) : 0 <= company_signal_score l <= 1.
Proof.
  unfold company_signal_score. apply capped_range.
  pose proof (revenue_signal_range l).
  destruct (email_signal_values l) as [-> | ->]; lra.
Qed.

(** ** The score *)



(** C5.  [mx_check=False] and [mx_check=None] give the same
    [email_validity_score], hence the same output of [compute_lead_score]. *)
Theorem mx_check_false_is_unchecked tldextract mx_lookup (l : lead) :
  email_validity_score mx_lookup l (Some false) = email_validity_score mx_lookup l None
  /\ compute_lead_score tldextract mx_lookup l (Some false)
     = compute_lead_score tldextract mx_lookup l None.
Proof.
  assert (He : email_validity_score mx_lookup l (Some false)
               = email_validity_score mx_lookup l None).
  { unfold email_validity_score. destruct (l !! "email") as [[|c s]|]; reflexivity. }
  split; [exact He|].
  unfold compute_lead_score, raw_weighted. now rewrite He.
Qed.

(** ** Scenarios *)

(** C8, as the code has it.  The lead [{email: "bob@gmail.com"}] scored
    without MX check has completeness 1/3 (0.333 in the breakdown), seniority
    0, domain match 0, company signal 0 and e-mail validity 0.6; the weighted
    sum is 0.22 and the integer score is 22. *)
Theorem bob_gmail_scenario tldextract mx_lookup :
  let score := fst (compute_lead_score tldextract mx_lookup lead_bob None) in
  let breakdown := snd (compute_lead_score tldextract mx_lookup lead_bob None) in
  completeness_score lead_bob == 1 # 3
  /\ breakdown !! "completeness" = Some 0.333
  /\ breakdown !! "seniority" = Some 0.000
  /\ breakdown !! "domain_match" = Some 0.000
  /\ breakdown !! "company_signal" = Some 0.000
  /\ breakdown !! "email_validity" = Some 0.600
  /\ breakdown !! "raw_weighted" = Some 0.2200
  /\ score = 22%Z.
Proof. cbv zeta. repeat split; vm_compute; reflexivity. Qed.

(** The score of that scenario is not below twenty. *)
Lemma bob_gmail_score_not_in_teens :
  ~ (fst (compute_lead_score None no_mx lead_bob None) < 20)%Z.
Proof. vm_compute. discriminate. Qed.

(** The integer score comes from the weighted sum itself: rounding the
    four-digit value of the breakdown can give another integer. *)
Remark score_not_from_reported_raw :
  let l : lead := {[ "estimated_revenue" := "3737600" ]} in
  fst (compute_lead_score None no_mx l None) = 1%Z
  /\ snd (compute_lead_score None no_mx l None) !! "raw_weighted" = Some 0.0150
  /\ Num.py_round (0.0150 * 100) = 2%Z.
Proof. cbv zeta. repeat split; vm_compute; reflexivity. Qed.

(** ** Totality and range of the sub-scores *)

Lemma completeness_score_missing (l : lead) :
  truthy (l !! "email") = false -> truthy (l !! "phone") = false ->
  truthy (l !! "linkedin_url") = false -> truthy (l !! "company_domain") = false ->
  truthy (l !! "company_name") = false ->
  completeness_score l == 0.
Proof.
  intros H1 H2 H3 H4 H5. unfold completeness_score.
  rewrite H1, H2, H3, H4, H5. reflexivity.
Qed.

Lemma seniority_score_missing (job_title : option string) :
  truthy job_title = false -> seniority_score job_title = 0.0.
Proof. destruct job_title as [[|c s]|]; [reflexivity | discriminate | reflexivity]. Qed.

Lemma email_validity_score_missing mx_lookup (l : lead) (mx_check : option bool) :
  truthy (l !! "email") = false -> email_validity_score mx_lookup l mx_check = 0.0.
Proof.
  unfold email_validity_score.
  destruct (l !! "email") as [[|c s]|]; [reflexivity | discriminate | reflexivity].
Qed.

Lemma domain_match_score_missing tldextract (l : lead) :
  truthy (l !! "email") = false \/ truthy (l !! "company_domain") = false ->
  domain_match_score tldextract l = 0.0.
Proof.
  unfold domain_match_score. intros [H|H].
  - now rewrite H.
  - replace (Str.is_empty (or_empty (l !! "company_domain"))) with true.
    + now rewrite orb_true_r.
    + destruct (l !! "company_domain") as [[|c s]|]; [reflexivity | discriminate | reflexivity].
Qed.

Lemma revenue_signal_malformed (l : lead) :
  Num.float_of_decimal (Str.keep is_digit_or_dot (or_empty (l !! "estimated_revenue"))) = None ->
  revenue_signal l = 0.0.
Proof.
  unfold revenue_signal.
  destruct (l !! "estimated_revenue") as [[|c s]|]; try reflexivity.
  unfold or_empty. now intros ->.
Qed.

Lemma company_signal_score_missing (l : lead) :
  truthy (l !! "email") = false ->
  Num.float_of_decimal (Str.keep is_digit_or_dot (or_empty (l !! "estimated_revenue"))) = None ->
  company_signal_score l == 0.
Proof.
  intros He Hr. unfold company_signal_score.
  rewrite (revenue_signal_malformed l Hr). unfold email_signal.
  destruct (l !! "email") as [[|c s]|]; [reflexivity | discriminate | reflexivity].
Qed.

(** C2, as the code has it.  Each of the five sub-score functions has a
    value for every lead whose fields are strings, missing or empty (what can
    fail on a string, [float] on the revenue and the MX lookup, is recovered
    from inside the function); that value lies in [0, 1]; and it is 0 when
    the fields the function reads are missing or empty, a revenue that is not
    a number counting as missing. *)
Theorem sub_scores_total_and_bounded tldextract mx_lookup (l : lead) (mx_check : option bool) :
  (0 <= completeness_score l <= 1
   /\ 0 <= seniority_score (l !! "job_title") <= 1
   /\ 0 <= email_validity_score mx_lookup l mx_check <= 1
   /\ 0 <= domain_match_score tldextract l <= 1
   /\ 0 <= company_signal_score l <= 1)
  /\ (truthy (l !! "email") = false -> truthy (l !! "phone") = false ->
      truthy (l !! "linkedin_url") = false -> truthy (l !! "company_domain") = false ->
      truthy (l !! "company_name") = false -> completeness_score l == 0)
  /\ (truthy (l !! "job_title") = false -> seniority_score (l !! "job_title") == 0)
  /\ (truthy (l !! "email") = false -> email_validity_score mx_lookup l mx_check == 0)
  /\ (truthy (l !! "email") = false \/ truthy (l !! "company_domain") = false ->
      domain_match_score tldextract l == 0)
  /\ (truthy (l !! "email") = false ->
      Num.float_of_decimal
        (Str.keep is_digit_or_dot (or_empty (l !! "estimated_revenue"))) = None ->
      company_signal_score l == 0).
Proof.
  split.
  - repeat split;
      first [ apply completeness_score_range | apply seniority_score_range
            | apply email_validity_score_range | apply domain_match_score_range
            | apply company_signal_score_range ].
  - split; [apply completeness_score_missing|].
    split; [intros H; now rewrite seniority_score_missing|].
    split; [intros H; now rewrite email_validity_score_missing|].
    split; [intros H; now rewrite domain_match_score_missing|].
    apply company_signal_score_missing.
Qed.

(** The lead without any field: every sub-score is 0. *)
Lemma sub_scores_of_empty_lead :
  completeness_score lead_empty == 0
  /\ seniority_score (lead_empty !! "job_title") == 0
  /\ email_validity_score no_mx lead_empty (Some true) == 0
  /\ domain_match_score None lead_empty == 0
  /\ company_signal_score lead_empty == 0.
Proof.
  destruct (sub_scores_total_and_bounded None no_mx lead_empty (Some true))
    as (_ & Hc & Hs & He & Hd & Hcs).
  split; [now apply Hc|]. split; [now apply Hs|]. split; [now apply He|].
  split; [apply Hd; now left|]. now apply Hcs.
Defined.

(** A malformed input that does not yield 0: the address [@acme.com] fails
    the syntax check, and [email_validity_score] still grants 0.3 for its
    domain. *)
Lemma malformed_email_scores_domain :
  email_syntax_valid "@acme.com" = false
  /\ email_validity_score no_mx lead_no_local_part None == 0.3
  /\ ~ email_validity_score no_mx lead_no_local_part None == 0.
Proof. repeat split; vm_compute; discriminate. Qed.

(** ** The company signal *)


(** C6, at the failing input.  The address [bob] has no domain to extract,
    and [company_signal_score] still adds its 0.6; [email_validity_score],
    which tests the domain before the personal set, adds nothing for it. *)
Theorem company_signal_without_domain :
  extract_domain_from_email "bob" = ""
  /\ company_signal_score lead_no_domain == 0.6
  /\ email_validity_score no_mx lead_no_domain None == 0.
Proof. split; [reflexivity|]. split; vm_compute; reflexivity. Qed.

Lemma revenue_signal_digits (l : lead) :
  revenue_signal l
  = match Num.float_of_decimal
            (Str.keep is_digit_or_dot (or_empty (l !! "estimated_revenue"))) with
    | Some v => (Qmin v 10000000 / 10000000) * 0.4
    | None => 0.0
    end.
Proof.
  unfold revenue_signal. destruct (l !! "estimated_revenue") as [[|c s]|]; reflexivity.
Qed.

(** C10.  What [estimated_revenue] adds inside [company_signal_score] lies
    in [0, 0.4] and is computed from the digits and dots of the string alone,
    every other character being deleted before parsing: a leading minus sign
    changes nothing, so ["-5000000"] adds the 0.2 that ["5000000"] adds, and a
    parsed value above 10,000,000 adds exactly 0.4. *)
Theorem revenue_signal_spec (l : lead) :
  company_signal_score l = Qmin (0.0 + email_signal l + revenue_signal l) 1.0
  /\ 0 <= revenue_signal l <= 0.4
  /\ revenue_signal l
     = match Num.float_of_decimal
               (Str.keep is_digit_or_dot (or_empty (l !! "estimated_revenue"))) with
       | Some v => (Qmin v 10000000 / 10000000) * 0.4
       | None => 0.0
       end
  /\ (forall l' : lead,
        Str.keep is_digit_or_dot (or_empty (l' !! "estimated_revenue"))
        = Str.keep is_digit_or_dot (or_empty (l !! "estimated_revenue")) ->
        revenue_signal l' = revenue_signal l)
  /\ (forall s : string,
        revenue_signal (<["estimated_revenue" := String "-" s]> l)
        = revenue_signal (<["estimated_revenue" := s]> l))
  /\ revenue_signal (<["estimated_revenue" := "-5000000"]> l) == 0.2
  /\ revenue_signal (<["estimated_revenue" := "5000000"]> l) == 0.2
  /\ (forall v : Q,
        Num.float_of_decimal
          (Str.keep is_digit_or_dot (or_empty (l !! "estimated_revenue"))) = Some v ->
        10000000 < v -> revenue_signal l == 0.4).
Proof.
  split; [reflexivity|]. split; [apply revenue_signal_range|].
  split; [apply revenue_signal_digits|].
  split; [intros l' H; rewrite !revenue_signal_digits; now rewrite H|].
  split; [intros s; rewrite !revenue_signal_digits, !lookup_insert_eq; reflexivity|].
  split; [rewrite revenue_signal_digits, lookup_insert_eq; reflexivity|].
  split; [rewrite revenue_signal_digits, lookup_insert_eq; reflexivity|].
  intros v Hv Hbig. rewrite revenue_signal_digits, Hv.
  rewrite (Q.min_r v 10000000) by lra. reflexivity.
Qed.

(** A revenue of 12.5 million adds 0.4. *)
Lemma revenue_signal_of_large_revenue : revenue_signal lead_large_revenue == 0.4.
Proof.
  destruct (revenue_signal_spec lead_large_revenue) as (_ & _ & _ & _ & _ & _ & _ & H).
  apply (H (1250000000 # 100)); reflexivity.
Defined.

(** ** Domain extraction *)

Lemma all_impl (f g : ascii -> bool) (s : string) :
  (forall c, f c = true -> g c = true) -> Str.all f s = true -> Str.all g s = true.
Proof.
  intros Hfg. induction s as [|c s IH]; simpl; [reflexivity|].
  rewrite !andb_true_iff. intros [Hc Hs]. auto.
Qed.

Lemma all_contains (f : ascii -> bool) (c : ascii) (s : string) :
  Str.all f s = true -> f c = false -> Str.contains c s = false.
Proof.
  intros Hs Hc. induction s as [|a s IH]; simpl in *; [reflexivity|].
  apply andb_true_iff in Hs as [Ha Hs]. rewrite (IH Hs), orb_false_r.
  destruct (Ascii.eqb_spec a c) as [->|]; [congruence | reflexivity].
Qed.

Lemma before_absent (c : ascii) (s : string) :
  Str.contains c s = false -> Url.before c s = s.
Proof.
  induction s as [|a s IH]; simpl; [reflexivity|].
  rewrite orb_false_iff. intros [-> Hs]. now rewrite (IH Hs).
Qed.

Lemma after_absent (c : ascii) (s : string) :
  Str.contains c s = false -> Url.after c s = None.
Proof.
  induction s as [|a s IH]; simpl; [reflexivity|].
  rewrite orb_false_iff. intros [-> Hs]. exact (IH Hs).
Qed.

Lemma after_last_absent (c : ascii) (s : string) :
  Str.contains c s = false -> Url.after_last c s = s.
Proof.
  destruct s as [|a s]; simpl; [reflexivity|].
  rewrite orb_false_iff. now intros [-> ->].
Qed.



Lemma rstrip_no_space (s : string) :
  Str.all (fun c => negb (Chars.is_space c)) s = true -> Str.rstrip s = s.
Proof.
  induction s as [|a s IH]; simpl; [reflexivity|].
  rewrite andb_true_iff, negb_true_iff. intros [Ha Hs].
  rewrite (IH Hs), Ha. now destruct s.
Qed.



Lemma append_empty_r (s : string) : s +:+ "" = s.
Proof.
  induction s as [|a s IH]; [reflexivity|].
  change (String a (s +:+ "") = String a s). now rewrite IH.
Qed.

Lemma split_nonempty (sep : ascii) (s : string) : Str.split sep s <> [].
Proof.
  destruct s as [|a s]; simpl; [discriminate|].
  destruct (Ascii.eqb a sep); [discriminate|]. destruct (Str.split sep s); discriminate.
Qed.

(** Joining the pieces of a split gives the string back. *)
Lemma join_split (sep : ascii) (s : string) :
  Str.join (String sep "") (Str.split sep s) = s.
Proof.
  induction s as [|a s IH]; simpl; [reflexivity|].
  pose proof (split_nonempty sep s) as Hne.
  destruct (Ascii.eqb_spec a sep) as [->|Hsep].
  - destruct (Str.split sep s) as [|h t]; [congruence|].
    simpl in *. now rewrite IH.
  - destruct (Str.split sep s) as [|h t]; [congruence|].
    destruct t as [|h' t]; simpl in *; now rewrite <- IH.
Qed.

(** The last two labels, as [extract_domain_from_url] computes them when
    [tldextract] gives nothing. *)
Lemma url_fallback_is_last_two_labels (host : string) :
  (let parts := Str.split "." host in
   if (2 <=? List.length parts)%nat then Str.join "." (Str.last_two parts) else host)
  = last_two_labels host.
Proof.
  cbv zeta. unfold last_two_labels.
  pose proof (join_split "." host) as Hj. pose proof (split_nonempty "." host) as Hne.
  destruct (Str.split "." host) as [|h [|h' t]]; [congruence | | reflexivity].
  simpl. exact (eq_sym Hj).
Qed.

Lemma last_two_shape {A} (l : list A) :
  l <> [] -> (exists a, l = [a] /\ Str.last_two l = [a]) \/ (exists a b, Str.last_two l = [a; b]).
Proof.
  induction l as [|x [|y [|z t]] IH]; intros Hne; [congruence | left; eauto | right; eauto |].
  right. destruct IH as [(a & H & _) | H]; [discriminate | discriminate | exact H].
Qed.


Lemma plain_host_no_space (s : string) :
  plain_host s = true -> Str.all (fun c => negb (Chars.is_space c)) s = true.
Proof.
  apply all_impl. intros c. unfold plain_host_char. now rewrite andb_true_iff.
Qed.

Lemma plain_host_free (c : ascii) (s : string) :
  plain_host s = true -> Str.contains c "/?#@[]:%" = true -> Str.contains c s = false.
Proof.
  intros Hs Hc. apply (all_contains plain_host_char); [exact Hs|].
  unfold plain_host_char. now rewrite Hc, andb_false_r.
Qed.






Lemma split_pieces_no_sep (sep : ascii) (s p : string) :
  In p (Str.split sep s) -> Str.contains sep p = false.
Proof.
  revert p. induction s as [|a s IH]; intros p; simpl.
  - intros [<- | []]. reflexivity.
  - pose proof (split_nonempty sep s) as Hne.
    destruct (Ascii.eqb a sep) eqn:Ha.
    + intros [<- | Hin]; [reflexivity | now apply IH].
    + destruct (Str.split sep s) as [|h t]; [congruence|].
      intros [<- | Hin]; simpl.
      * rewrite Ha. simpl. apply IH. now left.
      * apply IH. now right.
Qed.

Lemma split_pieces_all (f : ascii -> bool) (sep : ascii) (s p : string) :
  Str.all f s = true -> In p (Str.split sep s) -> Str.all f p = true.
Proof.
  revert p. induction s as [|a s IH]; intros p; simpl.
  - intros _ [<- | []]. reflexivity.
  - rewrite andb_true_iff. intros [Ha Hs].
    pose proof (split_nonempty sep s) as Hne.
    destruct (Ascii.eqb a sep).
    + intros [<- | Hin]; [reflexivity | now apply IH].
    + destruct (Str.split sep s) as [|h t]; [congruence|].
      intros [<- | Hin]; simpl.
      * rewrite Ha. simpl. apply IH; [assumption | now left].
      * apply IH; [assumption | now right].
Qed.

Lemma lower_is_lowered (s : string) : Str.all is_lowered (Str.lower s) = true.
Proof.
  induction s as [|a s IH]; simpl; [reflexivity|].
  unfold is_lowered at 1. now rewrite lower_char_idem, Ascii.eqb_refl.
Qed.

Lemma lower_fixed (s : string) : Str.all is_lowered s = true -> Str.lower s = s.
Proof.
  induction s as [|a s IH]; simpl; [reflexivity|].
  rewrite andb_true_iff. unfold is_lowered at 1. rewrite Ascii.eqb_eq.
  intros [-> Hs]. now rewrite (IH Hs).
Qed.

(** The domain that [extract_domain_from_email] returns is one piece of the
    lower-cased address, or empty. *)
Lemma extract_domain_from_email_piece (email : string) :
  extract_domain_from_email email = ""
  \/ In (extract_domain_from_email email) (Str.split "@" (Str.lower (Str.strip email))).
Proof.
  unfold extract_domain_from_email. destruct (Str.is_empty email); [now left|].
  destruct (Str.split "@" _) as [|a [|d [|x t]]]; auto.
  right. simpl. auto.
Qed.

(** It holds no ['@'], so the second extraction in [domain_match_score] is
    never taken. *)
Lemma extract_domain_from_email_no_at (email : string) :
  Str.contains "@" (extract_domain_from_email email) = false.
Proof.
  destruct (extract_domain_from_email_piece email) as [-> | Hin]; [reflexivity|].
  exact (split_pieces_no_sep "@" _ _ Hin).
Qed.

Lemma extract_domain_from_email_lowered (email : string) :
  Str.lower (extract_domain_from_email email) = extract_domain_from_email email.
Proof.
  destruct (extract_domain_from_email_piece email) as [-> | Hin]; [reflexivity|].
  apply lower_fixed. exact (split_pieces_all is_lowered "@" _ _ (lower_is_lowered _) Hin).
Qed.

Lemma last_two_labels_empty : last_two_labels "" = "".
Proof. reflexivity. Qed.





(** The same with a [tldextract] that finds no registered domain in either
    host: the code then compares the whole hosts, [extract_domain_from_url]
    their last two labels. *)
Remark domain_match_without_registered_domain :
  let unknown := Some (fun _ : string => "") in
  let l : lead := {[ "email" := "ann@a.corp.internal";
                     "company_domain" := "b.corp.internal" ]} in
  extract_domain_from_url unknown (extract_domain_from_email "ann@a.corp.internal")
  = extract_domain_from_url unknown "b.corp.internal"
  /\ domain_match_score unknown l = 0.0.
Proof. cbv zeta. split; reflexivity. Qed.

(** ** Deduplication *)

Section KeepRicher.
Context {K : Type} `{EqDecision K}.
Variable key : lead -> K.
Variable P : lead -> Prop.

Lemma get_absent (k : K) (d : list (K * lead)) :
  ~ In k (OrderedDict.keys d) -> OrderedDict.get k d = None.
Proof.
  induction d as [|[k' v] d IH]; simpl; [reflexivity|]. intros Hk.
  destruct (decide (k' = k)) as [->|]; [elim Hk; now left|].
  apply IH. intros Hin. apply Hk. now right.
Qed.

Lemma get_present (k : K) (d : list (K * lead)) (v : lead) :
  OrderedDict.get k d = Some v -> In k (OrderedDict.keys d).
Proof.
  induction d as [|[k' v'] d IH]; simpl; [discriminate|].
  destruct (decide (k' = k)) as [->|]; [now left|]. intros H. right. now apply IH.
Qed.

Lemma set_absent (k : K) (v : lead) (d : list (K * lead)) :
  ~ In k (OrderedDict.keys d) -> OrderedDict.set k v d = (d ++ [(k, v)])%list.
Proof.
  induction d as [|[k' v'] d IH]; simpl; [reflexivity|]. intros Hk.
  destruct (decide (k' = k)) as [->|]; [elim Hk; now left|].
  rewrite IH; [reflexivity|]. intros Hin. apply Hk. now right.
Qed.

Lemma set_present_keys (k : K) (v : lead) (d : list (K * lead)) :
  In k (OrderedDict.keys d) -> OrderedDict.keys (OrderedDict.set k v d) = OrderedDict.keys d.
Proof.
  induction d as [|[k' v'] d IH]; simpl; [intros []|]. intros Hk.
  destruct (decide (k' = k)) as [->|Hne]; [reflexivity|]. simpl.
  rewrite IH; [reflexivity|]. destruct Hk; [contradiction | assumption].
Qed.

Lemma set_entries (Q : K * lead -> Prop) (k : K) (v : lead) (d : list (K * lead)) :
  Q (k, v) -> Forall Q d -> Forall Q (OrderedDict.set k v d).
Proof.
  intros Hq. induction 1 as [|[k' v'] d Hx Hd IH]; simpl.
  - now repeat constructor.
  - destruct (decide (k' = k)); constructor; assumption.
Qed.

Lemma keys_app (d1 d2 : list (K * lead)) :
  OrderedDict.keys (d1 ++ d2)%list = (OrderedDict.keys d1 ++ OrderedDict.keys d2)%list.
Proof. apply List.map_app. Qed.

Lemma NoDup_snoc (k : K) (ks : list K) :
  List.NoDup ks -> ~ In k ks -> List.NoDup (ks ++ [k])%list.
Proof.
  induction 1 as [|x ks Hx Hks IH]; simpl; intros Hk.
  - constructor; [intros [] | constructor].
  - constructor.
    + rewrite in_app_iff. intros [Hin | [-> | []]]; [contradiction|].
      apply Hk. now left.
    + apply IH. intros Hin. apply Hk. now right.
Qed.

Lemma set_well_keyed (L : lead) (d : list (K * lead)) :
  well_keyed key d -> well_keyed key (OrderedDict.set (key L) L d).
Proof.
  intros [Hk Hn]. split; [now apply set_entries|].
  destruct (in_dec (fun a b => decide (a = b)) (key L) (OrderedDict.keys d)) as [Hin|Hout].
  - now rewrite set_present_keys.
  - rewrite set_absent, keys_app by assumption. now apply NoDup_snoc.
Qed.

Lemma keep_richer_well_keyed (L : lead) (d : list (K * lead)) :
  well_keyed key d -> well_keyed key (keep_richer (key L) L d).
Proof.
  intros Hd. unfold keep_richer.
  destruct (OrderedDict.get (key L) d); [destruct (_ <? _)%nat|];
    auto using set_well_keyed.
Qed.

Lemma keep_richer_values (L : lead) (d : list (K * lead)) :
  P L -> Forall P (OrderedDict.values d) ->
  Forall P (OrderedDict.values (keep_richer (key L) L d)).
Proof.
  intros HL Hd. unfold OrderedDict.values in *. rewrite Forall_map in *.
  unfold keep_richer.
  destruct (OrderedDict.get (key L) d); [destruct (_ <? _)%nat|];
    auto using set_entries.
Qed.

Lemma group_invariant (xs : list lead) :
  forall d, well_keyed key d -> Forall P (OrderedDict.values d) -> Forall P xs ->
    well_keyed key (group key xs d) /\ Forall P (OrderedDict.values (group key xs d)).
Proof.
  induction xs as [|L xs IH]; intros d Hd Hv Hxs; simpl; [now split|].
  inversion Hxs; subst.
  apply IH; auto using keep_richer_well_keyed, keep_richer_values.
Qed.

(** Running the loop again over what it kept changes nothing. *)
Lemma group_values (d2 : list (K * lead)) :
  forall d1, well_keyed key (d1 ++ d2)%list ->
    group key (OrderedDict.values d2) d1 = (d1 ++ d2)%list.
Proof.
  induction d2 as [|[k L] d2 IH]; intros d1 Hd; simpl.
  - now rewrite app_nil_r.
  - assert (Hk : k = key L).
    { destruct Hd as [Hf _]. rewrite Forall_app in Hf. destruct Hf as [_ Hf].
      now inversion Hf. }
    assert (Hout : ~ In (key L) (OrderedDict.keys d1)).
    { destruct Hd as [_ Hn]. rewrite keys_app in Hn. simpl in Hn.
      apply NoDup_remove_2 in Hn. rewrite <- Hk. intros Hin. apply Hn.
      rewrite in_app_iff. now left. }
    unfold keep_richer. rewrite (get_absent _ _ Hout), (set_absent _ _ _ Hout).
    rewrite <- Hk. rewrite IH; rewrite <- app_assoc; [reflexivity | exact Hd].
Qed.
End KeepRicher.

Lemma split_step_has_email (xs : list lead) :
  forall e n, Forall has_email xs ->
    fold_left split_step xs (e, n) = (group email_key xs e, n).
Proof.
  induction xs as [|L xs IH]; intros e n Hxs; simpl; [reflexivity|].
  inversion Hxs as [|? ? HL Hrest]; subst. unfold has_email in HL.
  rewrite HL. simpl. now apply IH.
Qed.

Lemma split_step_lacks_email (xs : list lead) :
  forall e n, Forall lacks_email xs ->
    fold_left split_step xs (e, n) = (e, (n ++ xs)%list).
Proof.
  induction xs as [|L xs IH]; intros e n Hxs; simpl; [now rewrite app_nil_r|].
  inversion Hxs as [|? ? HL Hrest]; subst. unfold lacks_email in HL.
  rewrite HL. simpl. rewrite IH by assumption. now rewrite <- app_assoc.
Qed.

Lemma split_step_invariant (xs : list lead) :
  forall e n,
    well_keyed email_key e -> Forall has_email (OrderedDict.values e) ->
    Forall lacks_email n ->
    well_keyed email_key (fst (fold_left split_step xs (e, n)))
    /\ Forall has_email (OrderedDict.values (fst (fold_left split_step xs (e, n))))
    /\ Forall lacks_email (snd (fold_left split_step xs (e, n))).
Proof.
  induction xs as [|L xs IH]; intros e n He Hv Hn; simpl;
    [split; [|split]; assumption|].
  destruct (Str.is_empty (email_key L)) eqn:HL; simpl.
  - apply IH; auto. rewrite Forall_app. split; [assumption|]. now repeat constructor.
  - apply IH; auto using keep_richer_well_keyed.
    now apply keep_richer_values.
Qed.

Lemma well_keyed_nil {K : Type} (key : lead -> K) : well_keyed key [].
Proof. split; constructor. Qed.

(** C4.  The deduplicator is idempotent:
    [dedupe_leads (dedupe_leads X) = dedupe_leads X] for every list of leads
    [X], as lists and so as sets of kept records. *)
Theorem dedupe_leads_idempotent (X : list lead) :
  dedupe_leads (dedupe_leads X) = dedupe_leads X.
Proof.
  destruct (split_by_email X) as [e n] eqn:Hsplit.
  set (nd := group_by_name_dom n).
  assert (HX : dedupe_leads X = (OrderedDict.values e ++ OrderedDict.values nd)%list).
  { unfold dedupe_leads. now rewrite Hsplit. }
  rewrite HX.
  destruct (split_step_invariant X [] [] (well_keyed_nil _)
              (List.Forall_nil _) (List.Forall_nil _)) as (He & Hev & Hn).
  unfold split_by_email in Hsplit. rewrite Hsplit in He, Hev, Hn.
  simpl in He, Hev, Hn.
  destruct (group_invariant name_dom_key lacks_email n [] (well_keyed_nil _)
              (List.Forall_nil _) Hn) as (Hnd & Hndv).
  change (group name_dom_key n []) with nd in Hnd, Hndv.
  unfold dedupe_leads, split_by_email. rewrite fold_left_app.
  rewrite (split_step_has_email _ [] [] Hev).
  rewrite (group_values email_key e [] He). cbn [app].
  rewrite (split_step_lacks_email _ e [] Hndv). cbn [app].
  change (group_by_name_dom (OrderedDict.values nd))
    with (group name_dom_key (OrderedDict.values nd) []).
  now rewrite (group_values name_dom_key nd [] Hnd).
Qed.

(** ** Prioritization *)

Lemma insert_desc_perm (x : scored_lead) (l : list scored_lead) :
  Permutation (x :: l) (insert_desc x l).
Proof.
  induction l as [|y r IH]; simpl; [reflexivity|].
  destruct (score_key x <? score_key y)%Z; [|reflexivity].
  rewrite perm_swap. now constructor.
Qed.

Lemma sorted_desc_perm (l : list scored_lead) : Permutation l (sorted_desc l).
Proof.
  induction l as [|x l IH]; simpl; [constructor|].
  rewrite <- insert_desc_perm. now constructor.
Qed.

Lemma insert_desc_sorted (x : scored_lead) (l : list scored_lead) :
  StronglySorted score_desc l -> StronglySorted score_desc (insert_desc x l).
Proof.
  induction 1 as [|y r Hr IH Hy]; simpl.
  - constructor; constructor.
  - destruct (score_key x <? score_key y)%Z eqn:Hxy.
    + constructor; [exact IH|].
      apply (Permutation_Forall (insert_desc_perm x r)). constructor; [|exact Hy].
      unfold score_desc. apply Z.ltb_lt in Hxy. lia.
    + apply Z.ltb_ge in Hxy. constructor; [now constructor|].
      constructor; [exact Hxy|].
      revert Hy. apply List.Forall_impl. unfold score_desc. intros z Hz. lia.
Qed.

Lemma sorted_desc_sorted (l : list scored_lead) : StronglySorted score_desc (sorted_desc l).
Proof.
  induction l as [|x l IH]; simpl; [constructor | now apply insert_desc_sorted].
Qed.

(** Insertion never moves a record past another one of the same score. *)
Lemma insert_desc_stable (k : Z) (x : scored_lead) (l : list scored_lead) :
  List.filter (has_score k) (insert_desc x l) = List.filter (has_score k) (x :: l).
Proof.
  induction l as [|y r IH]; [reflexivity|]. simpl insert_desc.
  destruct (score_key x <? score_key y)%Z eqn:Hxy; [|reflexivity].
  apply Z.ltb_lt in Hxy. simpl in *. rewrite IH. unfold has_score.
  destruct (Z.eqb_spec (score_key x) k), (Z.eqb_spec (score_key y) k);
    try reflexivity. lia.
Qed.

Lemma sorted_desc_stable (k : Z) (l : list scored_lead) :
  List.filter (has_score k) (sorted_desc l) = List.filter (has_score k) l.
Proof.
  induction l as [|x l IH]; [reflexivity|]. simpl sorted_desc.
  rewrite insert_desc_stable. simpl. now rewrite IH.
Qed.

Lemma has_score_filter_head (x : scored_lead) (l : list scored_lead) :
  List.filter (has_score (score_key x)) (x :: l)
  = x :: List.filter (has_score (score_key x)) l.
Proof. simpl. unfold has_score at 1. now rewrite Z.eqb_refl. Qed.

Lemma has_score_filter_in (k : Z) (x : scored_lead) (l t : list scored_lead) :
  List.filter (has_score k) l = x :: t -> In x l /\ score_key x = k.
Proof.
  intros H. assert (Hin : In x (List.filter (has_score k) l)) by (rewrite H; now left).
  apply filter_In in Hin as [Hin Hk]. split; [exact Hin|].
  unfold has_score in Hk. now apply Z.eqb_eq.
Qed.

(** A list has one stable descending sort only: two sorted lists that keep,
    score by score, the same records in the same order are equal. *)
Lemma stable_sort_unique (l1 : list scored_lead) :
  forall l2, StronglySorted score_desc l1 -> StronglySorted score_desc l2 ->
    (forall k, List.filter (has_score k) l1 = List.filter (has_score k) l2) ->
    l1 = l2.
Proof.
  induction l1 as [|x r1 IH]; intros l2 H1 H2 Hf.
  - destruct l2 as [|y r2]; [reflexivity|].
    specialize (Hf (score_key y)). rewrite has_score_filter_head in Hf. discriminate.
  - destruct l2 as [|y r2].
    { specialize (Hf (score_key x)). rewrite has_score_filter_head in Hf. discriminate. }
    inversion H1 as [|? ? Hr1 Hx]; subst. inversion H2 as [|? ? Hr2 Hy]; subst.
    rewrite List.Forall_forall in Hx, Hy.
    assert (Hxy : score_key x = score_key y).
    { pose proof (Hf (score_key x)) as Fx. rewrite has_score_filter_head in Fx.
      symmetry in Fx. apply has_score_filter_in in Fx as [[<- | Hin] _]; [reflexivity|].
      pose proof (Hf (score_key y)) as Fy. rewrite has_score_filter_head in Fy.
      apply has_score_filter_in in Fy as [[<- | Hin'] _]; [reflexivity|].
      pose proof (Hy x Hin). pose proof (Hx y Hin'). unfold score_desc in *. lia. }
    assert (Heq : x = y).
    { pose proof (Hf (score_key x)) as Fx. rewrite has_score_filter_head in Fx.
      rewrite Hxy, has_score_filter_head in Fx. now injection Fx. }
    subst y. f_equal. apply IH; try assumption.
    intros k. specialize (Hf k). simpl in Hf.
    destruct (has_score k x); [now injection Hf | exact Hf].
Qed.

(** With a cost of at least one credit, the loop takes the first
    [floor(budget / cost)] records, none for a negative budget. *)
Lemma select_firstn (per_cost : Z) (l : list scored_lead) :
  (1 <= per_cost)%Z ->
  forall budget, select budget per_cost l = firstn (Z.to_nat (budget / per_cost)) l.
Proof.
  intros Hc. induction l as [|x r IH]; intros budget; simpl.
  - now rewrite firstn_nil.
  - destruct (per_cost <=? budget)%Z eqn:Hb.
    + apply Z.leb_le in Hb. rewrite IH.
      assert (Hdiv : ((budget - per_cost) / per_cost = budget / per_cost - 1)%Z).
      { replace (budget - per_cost)%Z with (budget + (-1) * per_cost)%Z by lia.
        rewrite Z.div_add by lia. lia. }
      assert (Hpos : (1 <= budget / per_cost)%Z).
      { apply Z.div_le_lower_bound; lia. }
      rewrite Hdiv.
      replace (Z.to_nat (budget / per_cost)) with (S (Z.to_nat (budget / per_cost - 1)))
        by lia.
      reflexivity.
    + apply Z.leb_gt in Hb.
      assert (Hsmall : (budget / per_cost < 1)%Z) by (apply Z.div_lt_upper_bound; lia).
      replace (Z.to_nat (budget / per_cost)) with 0%nat by lia. reflexivity.
Qed.

Lemma firstn_sorted (n : nat) (l : list scored_lead) :
  StronglySorted score_desc l -> StronglySorted score_desc (firstn n l).
Proof.
  revert n. induction l as [|x r IH]; intros n Hl.
  - rewrite firstn_nil. constructor.
  - destruct n as [|n]; simpl; [constructor|].
    inversion Hl as [|? ? Hr Hx]; subst. constructor; [now apply IH|].
    rewrite List.Forall_forall in *. intros y Hy. apply Hx.
    revert Hy. clear. revert n. induction r as [|z r IH]; intros [|n]; simpl; try tauto.
    intros [->|H]; [now left | right; eauto].
Qed.

(** C3, as the code has it.  For a cost of at least one credit and any
    number of credits, [prioritize] returns the prefix of length
    [min(length of the input, max(0, floor(credits / cost)))] of the stable
    descending sort of the input: a permutation of the input, sorted by
    descending score, records of equal score in their input order, which
    makes it the only such list.  It never selects more than
    [max(0, floor(credits / cost))] records, and its output is sorted by
    descending score. *)
Theorem prioritize_spec (leads : list scored_lead) (credits cost_per_enrich : Z) :
  (1 <= cost_per_enrich)%Z ->
  let affordable := Z.max 0 (credits / cost_per_enrich) in
  let selected := prioritize leads credits cost_per_enrich in
  selected = firstn (Z.to_nat affordable) (sorted_desc leads)
  /\ List.length selected = Nat.min (List.length leads) (Z.to_nat affordable)
  /\ (Z.of_nat (List.length selected) <= affordable)%Z
  /\ StronglySorted score_desc selected
  /\ Permutation leads (sorted_desc leads)
  /\ StronglySorted score_desc (sorted_desc leads)
  /\ (forall k : Z,
        List.filter (has_score k) (sorted_desc leads) = List.filter (has_score k) leads)
  /\ (forall s : list scored_lead,
        StronglySorted score_desc s ->
        (forall k : Z, List.filter (has_score k) s = List.filter (has_score k) leads) ->
        s = sorted_desc leads).
Proof.
  intros Hc. cbv zeta.
  assert (Hsel : prioritize leads credits cost_per_enrich
                 = firstn (Z.to_nat (Z.max 0 (credits / cost_per_enrich)))
                     (sorted_desc leads)).
  { unfold prioritize. rewrite (select_firstn _ _ Hc). f_equal. lia. }
  assert (Hlen : List.length (sorted_desc leads) = List.length leads).
  { symmetry. apply Permutation_length, sorted_desc_perm. }
  rewrite Hsel. split; [reflexivity|].
  split; [rewrite length_firstn, Hlen; lia|].
  split; [rewrite length_firstn, Hlen; lia|].
  split; [apply firstn_sorted, sorted_desc_sorted|].
  split; [apply sorted_desc_perm|].
  split; [apply sorted_desc_sorted|].
  split; [intros k; apply sorted_desc_stable|].
  intros s Hs Hk. apply stable_sort_unique; [exact Hs | apply sorted_desc_sorted |].
  intros k. now rewrite Hk, sorted_desc_stable.
Qed.

(** Two credits at one credit each, scores 70, 90 and 80: the records of
    score 90 and 80 are selected, in that order. *)
Lemma prioritize_top_two :
  prioritize [scored "c" 70; scored "a" 90; scored "b" 80] 2 1
  = [scored "a" 90; scored "b" 80].
Proof.
  destruct (prioritize_spec [scored "c" 70; scored "a" 90; scored "b" 80] 2 1)
    as (H & _); [lia|].
  rewrite H. reflexivity.
Defined.

(** With a negative number of credits nothing is selected, which is more
    than [floor(credits / cost)]. *)
Lemma prioritize_negative_credits :
  ~ (Z.of_nat (List.length (prioritize [scored "a" 90] (-1) 1)) <= (-1) / 1)%Z.
Proof. vm_compute. intros H. now apply H. Qed.

(** ** Further scenarios of the specification *)

(** A complete executive lead with a matching corporate address scores 94. *)
Example jane_acme_scenario :
  completeness_score lead_jane == 1
  /\ seniority_score (lead_jane !! "job_title") == 1
  /\ domain_match_score None lead_jane == 1
  /\ email_validity_score no_mx lead_jane None == 0.9
  /\ company_signal_score lead_jane == 0.6
  /\ fst (compute_lead_score None no_mx lead_jane None) = 94%Z.
Proof. repeat split; vm_compute; reflexivity. Qed.

(** Two leads with the same normalized address: the more complete one is
    kept, at the place of the first. *)
Example dedupe_keeps_richer :
  let poor : lead := {[ "email" := "Ann@Acme.com " ]} in
  let rich : lead := {[ "email" := "ann@acme.com"; "phone" := "555-0000" ]} in
  let other : lead := {[ "full_name" := "Bo  Li"; "company_domain" := "x.org" ]} in
  dedupe_leads [poor; other; rich; other] = [rich; other].
Proof. vm_compute. reflexivity. Qed.

Example seniority_examples :
  seniority_score (Some "VP, Sales") == 0.85
  /\ seniority_score (Some "Senior Engineering Manager / Tech Lead") == 0.6
  /\ seniority_score (Some "Headline writer") == 0
  /\ seniority_score (Some "Co-Founder & CTO") == 1.
Proof. repeat split; vm_compute; reflexivity. Qed.

Example extract_domain_examples :
  extract_domain_from_url None "https://www.Acme.com/about?x=1" = "acme.com"
  /\ extract_domain_from_url None "user@shop.example.co.uk:8080" = "co.uk"
  /\ extract_domain_from_url None "http://[::1" = ""
  /\ extract_domain_from_email " Bob@Gmail.COM " = "gmail.com"
  /\ extract_domain_from_email "a@b@c" = "".
Proof. repeat split; vm_compute; reflexivity. Qed.

(** * Further properties of the code *)

(** ** The selection loop of [prioritize] *)

Lemma select_prefix (budget per_cost : Z) (l : list scored_lead) :
  exists rest, l = (select budget per_cost l ++ rest)%list.
Proof.
  revert budget. induction l as [|x r IH]; intros budget; simpl.
  - now exists [].
  - destruct (per_cost <=? budget)%Z.
    + destruct (IH (budget - per_cost)%Z) as [rest Hrest]. exists rest.
      simpl. now rewrite <- Hrest.
    + now exists (x :: r).
Qed.

Lemma select_idem (budget per_cost : Z) (l : list scored_lead) :
  select budget per_cost (select budget per_cost l) = select budget per_cost l.
Proof.
  revert budget. induction l as [|x r IH]; intros budget; simpl; [reflexivity|].
  destruct (per_cost <=? budget)%Z eqn:Hb; simpl; [|reflexivity].
  now rewrite Hb, IH.
Qed.

Lemma select_mono (per_cost : Z) (l : list scored_lead) :
  forall b1 b2, (b1 <= b2)%Z ->
    exists more, select b2 per_cost l = (select b1 per_cost l ++ more)%list.
Proof.
  induction l as [|x r IH]; intros b1 b2 Hb; simpl.
  - now exists [].
  - destruct (per_cost <=? b1)%Z eqn:H1.
    + apply Z.leb_le in H1.
      replace (per_cost <=? b2)%Z with true by (symmetry; apply Z.leb_le; lia).
      destruct (IH (b1 - per_cost)%Z (b2 - per_cost)%Z) as [more Hmore]; [lia|].
      exists more. simpl. now rewrite Hmore.
    + eexists. reflexivity.
Qed.

Lemma select_free (per_cost : Z) (l : list scored_lead) :
  (per_cost <= 0)%Z -> forall budget, (per_cost <= budget)%Z ->
    select budget per_cost l = l.
Proof.
  intros Hc. induction l as [|x r IH]; intros budget Hb; simpl; [reflexivity|].
  replace (per_cost <=? budget)%Z with true by (symmetry; apply Z.leb_le; lia).
  rewrite IH; [reflexivity | lia].
Qed.

Lemma sorted_app_cross (a b : list scored_lead) :
  StronglySorted score_desc (a ++ b) ->
  StronglySorted score_desc a
  /\ forall x y, In x a -> In y b -> score_desc x y.
Proof.
  induction a as [|z a IH]; simpl; intros H.
  - split; [constructor | intros x y []].
  - inversion H as [|? ? Hs Hz]; subst. destruct (IH Hs) as [Ha Hcross].
    rewrite List.Forall_forall in Hz. split.
    + constructor; [exact Ha|]. rewrite List.Forall_forall. intros y Hy.
      apply Hz. rewrite in_app_iff. now left.
    + intros x y [<- | Hx] Hy; [|now apply Hcross].
      apply Hz. rewrite in_app_iff. now right.
Qed.

(** Sorting a list that is sorted already changes nothing. *)
Lemma sorted_desc_fixed (s : list scored_lead) :
  StronglySorted score_desc s -> sorted_desc s = s.
Proof.
  intros Hs. apply stable_sort_unique; [apply sorted_desc_sorted | exact Hs |].
  intros k. apply sorted_desc_stable.
Qed.

(** X3.  Whatever the credits and the cost, [prioritize] splits the sorted
    input in two: what it selects and the rest.  Every selected record comes
    from the input, and no record of the rest has a higher score than a
    selected one. *)
Theorem prioritize_takes_the_top (leads : list scored_lead) (credits cost_per_enrich : Z) :
  exists rest : list scored_lead,
    sorted_desc leads = (prioritize leads credits cost_per_enrich ++ rest)%list
    /\ Permutation leads (prioritize leads credits cost_per_enrich ++ rest)
    /\ (forall x, In x (prioritize leads credits cost_per_enrich) -> In x leads)
    /\ (forall x y, In x (prioritize leads credits cost_per_enrich) -> In y rest ->
        (score_key y <= score_key x)%Z).
Proof.
  unfold prioritize.
  destruct (select_prefix credits cost_per_enrich (sorted_desc leads)) as [rest Hrest].
  exists rest. set (sel := select credits cost_per_enrich (sorted_desc leads)) in *.
  assert (Hperm : Permutation leads (sel ++ rest)).
  { rewrite <- Hrest. apply sorted_desc_perm. }
  split; [exact Hrest|]. split; [exact Hperm|]. split.
  - intros x Hx. apply (Permutation_in x (Permutation_sym Hperm)).
    rewrite in_app_iff. now left.
  - pose proof (sorted_desc_sorted leads) as Hs. rewrite Hrest in Hs.
    destruct (sorted_app_cross _ _ Hs) as [_ Hcross]. exact Hcross.
Qed.

(** X4.  [prioritize] is idempotent: run again on its own output with the
    same credits and cost, it returns that output. *)
Theorem prioritize_idempotent (leads : list scored_lead) (credits cost_per_enrich : Z) :
  prioritize (prioritize leads credits cost_per_enrich) credits cost_per_enrich
  = prioritize leads credits cost_per_enrich.
Proof.
  unfold prioritize.
  destruct (select_prefix credits cost_per_enrich (sorted_desc leads)) as [rest Hrest].
  pose proof (sorted_desc_sorted leads) as Hs. rewrite Hrest in Hs.
  destruct (sorted_app_cross _ _ Hs) as [Hsel _].
  rewrite (sorted_desc_fixed _ Hsel). apply select_idem.
Qed.

(** X5.  More credits never drop a record: at the same cost, the selection
    for the smaller budget is a prefix of the selection for the larger. *)
Theorem prioritize_monotone (leads : list scored_lead) (credits1 credits2 cost : Z) :
  (credits1 <= credits2)%Z ->
  exists more : list scored_lead,
    prioritize leads credits2 cost = (prioritize leads credits1 cost ++ more)%list.
Proof. intros Hc. unfold prioritize. now apply select_mono. Qed.

Lemma prioritize_monotone_three_to_five :
  exists more : list scored_lead,
    prioritize [scored "c" 70; scored "a" 90; scored "b" 80] 5 2
    = (prioritize [scored "c" 70; scored "a" 90; scored "b" 80] 3 2 ++ more)%list.
Proof. apply prioritize_monotone. lia. Defined.

(** X6.  The budget does not bind in two cases, in which [prioritize]
    returns the whole sorted input: a cost of zero or less that the credits
    reach (the loop never runs out), and a cost of at least one with credits
    for every record. *)
Theorem prioritize_selects_everything (leads : list scored_lead) (credits cost : Z) :
  (cost <= 0 /\ cost <= credits)%Z
  \/ (1 <= cost /\ cost * Z.of_nat (List.length leads) <= credits)%Z ->
  prioritize leads credits cost = sorted_desc leads.
Proof.
  intros [[Hc Hb] | [Hc Hb]]; unfold prioritize.
  - now apply select_free.
  - rewrite (select_firstn _ _ Hc). apply firstn_all2.
    rewrite <- (Permutation_length (sorted_desc_perm leads)).
    assert (Z.of_nat (List.length leads) <= credits / cost)%Z
      by (apply Z.div_le_lower_bound; lia).
    lia.
Qed.

Lemma prioritize_at_zero_cost :
  prioritize [scored "c" 70; scored "a" 90; scored "b" 80] 0 0
  = sorted_desc [scored "c" 70; scored "a" 90; scored "b" 80].
Proof. apply prioritize_selects_everything. left. lia. Defined.

(** ** The sub-scores, more closely *)


Lemma seniority_fold_max (title : string) (table : list (list string * Q)) :
  forall best,
    let result :=
      fold_left
        (fun best '(alts, val) => if search alts None title then Qmax best val else best)
        table best in
    (forall alts val, In (alts, val) table -> search alts None title = true ->
     val <= result)
    /\ best <= result
    /\ (result = best
        \/ exists alts val, In (alts, val) table /\ search alts None title = true
                            /\ result = val).
Proof.
  induction table as [|[alts val] table IH]; intros best; cbv zeta; simpl.
  - split; [intros ? ? []|]. split; [apply Qle_refl | now left].
  - set (b := if search alts None title then Qmax best val else best).
    destruct (IH b) as (Hall & Hle & Hex). cbv zeta in Hle, Hall, Hex.
    assert (Hb : best <= b).
    { unfold b. destruct (search alts None title); [apply Q.le_max_l | apply Qle_refl]. }
    split; [|split; [now apply Qle_trans with b|]].
    + intros alts' val' [[= <- <-] | Hin] Hs; [|exact (Hall alts' val' Hin Hs)].
      apply Qle_trans with b; [|exact Hle]. unfold b. rewrite Hs. apply Q.le_max_r.
    + destruct Hex as [-> | (alts' & val' & Hin & Hs & Hr)].
      * unfold b. destruct (search alts None title) eqn:Hs; [|now left].
        unfold Qmax, GenericMinMax.gmax. destruct (best ?= val); [now left | | now left].
        right. exists alts, val. split; [now left|]. now split.
      * right. exists alts', val'. split; [now right|]. now split.
Qed.

Lemma TITLE_KEYWORDS_positive : Forall (fun p => 0 < snd p) TITLE_KEYWORDS.
Proof.
  unfold TITLE_KEYWORDS.
  repeat (apply List.Forall_cons; [reflexivity|]). apply List.Forall_nil.
Qed.

Lemma search_empty (alts : list string) : search alts None "" = false.
Proof. reflexivity. Qed.

Lemma seniority_score_of_normalized (n : string) :
  normalize (PyStr n) = n ->
  seniority_score (Some n)
  = fold_left
      (fun best '(alts, val) => if search alts None n then Qmax best val else best)
      TITLE_KEYWORDS 0.0.
Proof.
  intros Hn. destruct n as [|c t]; [reflexivity|].
  unfold seniority_score. now rewrite Hn.
Qed.

(** X8.  [seniority_score] is the largest value among the title patterns
    that match the normalized title, and 0.0 when none matches: every
    matching pattern bounds it from below, and it is the value of one of
    them.  It reads the title through [normalize] only, so case and the
    amount of white space do not count. *)
Theorem seniority_score_is_best_match (job_title : string) :
  let title := normalize (PyStr job_title) in
  let s := seniority_score (Some job_title) in
  (forall alts val, In (alts, val) TITLE_KEYWORDS -> search alts None title = true ->
   val <= s)
  /\ ((s = 0.0 /\ forall alts val, In (alts, val) TITLE_KEYWORDS ->
                    search alts None title = false)
      \/ exists alts val, In (alts, val) TITLE_KEYWORDS
                          /\ search alts None title = true /\ s = val)
  /\ seniority_score (Some title) = s.
Proof.
  cbv zeta. set (title := normalize (PyStr job_title)).
  assert (Hs : seniority_score (Some job_title)
               = fold_left
                   (fun best '(alts, val) =>
                      if search alts None title then Qmax best val else best)
                   TITLE_KEYWORDS 0.0).
  { destruct job_title; reflexivity. }
  rewrite Hs.
  destruct (seniority_fold_max title TITLE_KEYWORDS 0.0) as (Hall & _ & Hex).
  cbv zeta in Hall, Hex. split; [exact Hall|]. split.
  - destruct Hex as [Heq | Hex]; [|now right].
    left. split; [exact Heq|]. intros alts val Hin.
    destruct (search alts None title) eqn:Hm; [|reflexivity]. exfalso.
    pose proof (Hall alts val Hin Hm) as Hle. rewrite Heq in Hle.
    pose proof (proj1 (List.Forall_forall _ _) TITLE_KEYWORDS_positive _ Hin) as Hpos.
    simpl in Hpos. lra.
  - apply seniority_score_of_normalized. apply normalize_str_fixed.
Qed.

(** X9.  The MX check can only add: with [mx_check=True] the e-mail validity
    is the unchecked one plus 0.1 when the lead has an e-mail value and the
    lookup of its domain finds MX records, and the unchecked one otherwise
    (no resolver, or a failed lookup).  Unchecked, it never exceeds 0.9, so
    the closing [min(..., 1.0)] never cuts anything. *)
Theorem mx_check_adds_a_tenth (mx_lookup : string -> option bool) (l : lead) :
  let d := extract_domain_from_email (or_empty (l !! "email")) in
  let found :=
    truthy (l !! "email")
    && match mx_lookup d with Some true => true | _ => false end in
  email_validity_score mx_lookup l (Some true)
  == email_validity_score mx_lookup l None + (if found then 0.1 else 0)
  /\ email_validity_score mx_lookup l None <= 0.9
  /\ email_validity_score mx_lookup l (Some true) <= 1.
Proof.
  cbv zeta. unfold email_validity_score.
  destruct (l !! "email") as [[|c s]|]; simpl truthy; simpl or_empty.
  - repeat split; simpl; lra.
  - destruct (email_syntax_valid _), (negb _ && negb _)%bool,
      (mx_lookup _) as [[]|]; repeat split; vm_compute; reflexivity || discriminate.
  - repeat split; simpl; lra.
Qed.

Lemma completeness_score_without_email (l : lead) :
  truthy (l !! "email") = false -> completeness_score l <= 2 # 3.
Proof.
  intros He. unfold completeness_score. rewrite He.
  destruct (truthy (l !! "phone")), (truthy (l !! "linkedin_url")),
    (truthy (l !! "company_domain") || truthy (l !! "company_name"))%bool;
    vm_compute; discriminate.
Qed.

(** X10.  A lead without e-mail value never scores above 54: it loses the
    e-mail part of the completeness, the e-mail validity, the domain match
    and the 0.6 of the company signal. *)
Theorem score_without_email tldextract mx_lookup (l : lead) (mx_check : option bool) :
  truthy (l !! "email") = false ->
  (fst (compute_lead_score tldextract mx_lookup l mx_check) <= 54)%Z.
Proof.
  intros He. unfold compute_lead_score. cbn [fst].
  apply (py_round_range _ 0 54). unfold raw_weighted.
  change (weight "completeness") with 0.30. change (weight "seniority") with 0.30.
  change (weight "email_validity") with 0.20. change (weight "domain_match") with 0.10.
  change (weight "company_signal") with 0.10.
  rewrite (email_validity_score_missing mx_lookup l mx_check He).
  rewrite (domain_match_score_missing tldextract l (or_introl He)).
  pose proof (completeness_score_range l) as [Hc0 _].
  pose proof (completeness_score_without_email l He) as Hc.
  pose proof (seniority_score_range (l !! "job_title")) as [Hs0 Hs1].
  pose proof (revenue_signal_range l) as [Hr0 Hr1].
  assert (Hcs : 0 <= company_signal_score l <= 0.4).
  { split; [apply company_signal_score_range|]. unfold company_signal_score.
    apply Qle_trans with (0.0 + email_signal l + revenue_signal l); [apply Q.le_min_l|].
    unfold email_signal. destruct (l !! "email") as [[|c s]|]; try discriminate; lra. }
  change (inject_Z 0) with 0. change (inject_Z 54) with 54. lra.
Qed.

(** The best lead without e-mail reaches the bound. *)
Lemma score_without_email_reached :
  (fst (compute_lead_score None no_mx lead_without_email None) <= 54)%Z
  /\ fst (compute_lead_score None no_mx lead_without_email None) = 54%Z.
Proof.
  split; [apply score_without_email; reflexivity | vm_compute; reflexivity].
Defined.

(** ** What [dedupe_leads] keeps *)

Section Grouping.
Context {K : Type} `{EqDecision K}.
Variable key : lead -> K.

Lemma get_In (k : K) (d : list (K * lead)) (v : lead) :
  OrderedDict.get k d = Some v -> In (k, v) d.
Proof.
  induction d as [|[k' v'] d IH]; simpl; [discriminate|].
  destruct (decide (k' = k)) as [->|]; [intros [= ->]; now left|].
  intros H. right. now apply IH.
Qed.

Lemma get_set_eq (k : K) (v : lead) (d : list (K * lead)) :
  OrderedDict.get k (OrderedDict.set k v d) = Some v.
Proof.
  induction d as [|[k' v'] d IH]; simpl.
  - now destruct (decide (k = k)).
  - destruct (decide (k' = k)) as [->|Hne]; simpl.
    + now destruct (decide (k = k)).
    + now destruct (decide (k' = k)).
Qed.

Lemma get_set_ne (k k' : K) (v : lead) (d : list (K * lead)) :
  k' <> k -> OrderedDict.get k' (OrderedDict.set k v d) = OrderedDict.get k' d.
Proof.
  intros Hne. induction d as [|[k0 v0] d IH]; simpl.
  - destruct (decide (k = k')); [congruence | reflexivity].
  - destruct (decide (k0 = k)) as [->|H0]; simpl.
    + destruct (decide (k = k')); [congruence | reflexivity].
    + destruct (decide (k0 = k')); [reflexivity | exact IH].
Qed.

(** A turn of the loop never makes the record kept under a key poorer, and
    leaves under the key of [L] a record at least as rich as [L]. *)
Lemma keep_richer_covers (L : lead) (d : list (K * lead)) :
  (exists v, OrderedDict.get (key L) (keep_richer (key L) L d) = Some v
             /\ (count_nonempty_fields L <= count_nonempty_fields v)%nat)
  /\ forall k v, OrderedDict.get k d = Some v ->
       exists v', OrderedDict.get k (keep_richer (key L) L d) = Some v'
                  /\ (count_nonempty_fields v <= count_nonempty_fields v')%nat.
Proof.
  unfold keep_richer.
  destruct (OrderedDict.get (key L) d) as [existing|] eqn:Hget.
  - destruct (count_nonempty_fields existing <? count_nonempty_fields L)%nat eqn:Hlt.
    + apply Nat.ltb_lt in Hlt. split.
      * exists L. now rewrite get_set_eq.
      * intros k v Hk. destruct (decide (k = key L)) as [->|Hne].
        -- exists L. rewrite get_set_eq. split; [reflexivity|].
           rewrite Hget in Hk. injection Hk as <-. lia.
        -- exists v. rewrite get_set_ne by assumption. now split.
    + apply Nat.ltb_ge in Hlt. split; [exists existing; now split|].
      intros k v Hk. exists v. now split.
  - split.
    + exists L. now rewrite get_set_eq.
    + intros k v Hk. destruct (decide (k = key L)) as [->|Hne]; [congruence|].
      exists v. rewrite get_set_ne by assumption. now split.
Qed.

Lemma group_covers (xs : list lead) :
  forall d,
    (forall L, In L xs ->
       exists v, OrderedDict.get (key L) (group key xs d) = Some v
                 /\ (count_nonempty_fields L <= count_nonempty_fields v)%nat)
    /\ forall k v, OrderedDict.get k d = Some v ->
         exists v', OrderedDict.get k (group key xs d) = Some v'
                    /\ (count_nonempty_fields v <= count_nonempty_fields v')%nat.
Proof.
  induction xs as [|x xs IH]; intros d; simpl.
  - split; [intros L []|]. intros k v Hk. exists v. now split.
  - destruct (IH (keep_richer (key x) x d)) as [Hin Hold].
    destruct (keep_richer_covers x d) as [(v0 & Hv0 & Hc0) Hkeep]. split.
    + intros L [<- | HL]; [|now apply Hin].
      destruct (Hold _ _ Hv0) as (v' & Hv' & Hc'). exists v'. split; [exact Hv' | lia].
    + intros k v Hk. destruct (Hkeep k v Hk) as (v1 & Hv1 & Hc1).
      destruct (Hold _ _ Hv1) as (v' & Hv' & Hc'). exists v'. split; [exact Hv' | lia].
Qed.

Lemma keep_richer_length (k : K) (L : lead) (d : list (K * lead)) :
  (List.length (keep_richer k L d) <= S (List.length d))%nat.
Proof.
  assert (Hset : forall v, (List.length (OrderedDict.set k v d) <= S (List.length d))%nat).
  { intros v. induction d as [|[k' v'] d IH]; simpl; [lia|].
    destruct (decide (k' = k)); simpl; lia. }
  unfold keep_richer.
  destruct (OrderedDict.get k d); [destruct (_ <? _)%nat|]; auto.
Qed.

Lemma group_length (xs : list lead) :
  forall d, (List.length (group key xs d) <= List.length d + List.length xs)%nat.
Proof.
  induction xs as [|x xs IH]; intros d; simpl; [lia|].
  pose proof (IH (keep_richer (key x) x d)).
  pose proof (keep_richer_length (key x) x d). lia.
Qed.
End Grouping.

(** The first loop sorts the records by the presence of a normalized e-mail
    and leaves the grouping of those that have one to the shared body. *)
Lemma split_step_partition (xs : list lead) :
  forall e n,
    fold_left split_step xs (e, n)
    = (group email_key (List.filter has_email_b xs) e,
       (n ++ List.filter (fun L => negb (has_email_b L)) xs)%list).
Proof.
  induction xs as [|L xs IH]; intros e n; [simpl; now rewrite app_nil_r|].
  assert (Hstep : split_step (e, n) L
                  = if has_email_b L then (keep_richer (email_key L) L e, n)
                    else (e, (n ++ [L])%list)) by reflexivity.
  cbn [fold_left List.filter]. rewrite Hstep.
  destruct (has_email_b L); cbn [negb]; rewrite IH; [reflexivity|].
  now rewrite <- app_assoc.
Qed.

(** [dedupe_leads] as the two groupings it performs. *)
Lemma dedupe_leads_groups (X : list lead) :
  dedupe_leads X
  = (OrderedDict.values (group email_key (List.filter has_email_b X) [])
     ++ OrderedDict.values
          (group name_dom_key (List.filter (fun L => negb (has_email_b L)) X) []))%list.
Proof.
  unfold dedupe_leads, split_by_email. rewrite split_step_partition. reflexivity.
Qed.

Lemma well_keyed_keys {K : Type} (key : lead -> K) (d : list (K * lead)) :
  well_keyed key d ->
  map key (OrderedDict.values d) = OrderedDict.keys d
  /\ List.NoDup (map key (OrderedDict.values d)).
Proof.
  intros [Hk Hn].
  assert (Heq : map key (OrderedDict.values d) = OrderedDict.keys d).
  { clear Hn. induction Hk as [|[k v] d Hkv Hd IH]; simpl; [reflexivity|].
    simpl in Hkv. now rewrite IH, Hkv. }
  split; [exact Heq | now rewrite Heq].
Qed.

Lemma values_In {K : Type} (k : K) (v : lead) (d : list (K * lead)) :
  In (k, v) d -> In v (OrderedDict.values d).
Proof. intros H. apply in_map_iff. now exists (k, v). Qed.

(** The records found by one grouping: each is one of the records grouped,
    sits under its own key, and every record grouped has a record at least
    as rich under its key. *)
Lemma group_from_nil {K : Type} `{EqDecision K} (key : lead -> K) (xs : list lead) :
  let d := group key xs [] in
  well_keyed key d
  /\ Forall (fun v => In v xs) (OrderedDict.values d)
  /\ forall L, In L xs ->
       exists v, In v (OrderedDict.values d) /\ key v = key L
                 /\ (count_nonempty_fields L <= count_nonempty_fields v)%nat.
Proof.
  cbv zeta.
  destruct (group_invariant key (fun v => In v xs) xs [] (well_keyed_nil key)
              (List.Forall_nil _)) as [Hw Hv].
  { rewrite List.Forall_forall. auto. }
  split; [exact Hw|]. split; [exact Hv|].
  intros L HL. destruct (group_covers key xs []) as [Hcov _].
  destruct (Hcov L HL) as (v & Hget & Hc). apply get_In in Hget.
  exists v. split; [now apply values_In with (key L)|]. split; [|exact Hc].
  destruct Hw as [Hk _]. rewrite List.Forall_forall in Hk.
  symmetry. exact (Hk _ Hget).
Qed.

(** X11.  [dedupe_leads] invents and loses nothing: every record it returns
    is a record of the input, and every record of the input is represented by
    a returned record of the same group (the same normalized e-mail, or for
    records without e-mail the same normalized name and company domain) that
    has at least as many filled fields.  The output is never longer than the
    input. *)
Theorem dedupe_leads_represents (X : list lead) :
  (forall L, In L (dedupe_leads X) -> In L X)
  /\ (forall L, In L X ->
        exists L', In L' (dedupe_leads X)
          /\ email_key L' = email_key L
          /\ (has_email_b L = false -> name_dom_key L' = name_dom_key L)
          /\ (count_nonempty_fields L <= count_nonempty_fields L')%nat)
  /\ (List.length (dedupe_leads X) <= List.length X)%nat.
Proof.
  rewrite dedupe_leads_groups.
  set (E := List.filter has_email_b X).
  set (N := List.filter (fun L => negb (has_email_b L)) X).
  destruct (group_from_nil email_key E) as (_ & HEin & HEcov).
  destruct (group_from_nil name_dom_key N) as (_ & HNin & HNcov).
  cbv zeta in HEin, HEcov, HNin, HNcov.
  rewrite List.Forall_forall in HEin, HNin.
  split; [|split].
  - intros L. rewrite in_app_iff. intros [HL | HL].
    + apply HEin in HL. now apply filter_In in HL.
    + apply HNin in HL. now apply filter_In in HL.
  - intros L HL. destruct (has_email_b L) eqn:Hb.
    + destruct (HEcov L) as (v & Hv & Hk & Hc); [apply filter_In; now split|].
      exists v. rewrite in_app_iff. split; [now left|]. split; [exact Hk|].
      split; [discriminate | exact Hc].
    + destruct (HNcov L) as (v & Hv & Hk & Hc);
        [apply filter_In; split; [exact HL | now rewrite Hb]|].
      exists v. rewrite in_app_iff. split; [now right|].
      assert (HvN : In v N) by now apply HNin.
      apply filter_In in HvN as [_ HvN]. apply negb_true_iff in HvN.
      unfold has_email_b in Hb, HvN. apply negb_false_iff in Hb, HvN.
      split; [|split; [intros _; exact Hk | exact Hc]].
      destruct (email_key v), (email_key L); try discriminate. reflexivity.
  - rewrite length_app. unfold OrderedDict.values. rewrite !length_map.
    pose proof (group_length email_key E []).
    pose proof (group_length name_dom_key N []).
    assert (List.length E + List.length N = List.length X)%nat.
    { unfold E, N. clear. induction X as [|L X IH]; simpl; [reflexivity|].
      destruct (has_email_b L); simpl; lia. }
    simpl in *. lia.
Qed.

(** X12.  The output of [dedupe_leads] holds the records with a normalized
    e-mail first, no two of them with the same normalized e-mail, then the
    records without, no two of them with the same normalized name and company
    domain. *)
Theorem dedupe_leads_unique_keys (X : list lead) :
  exists E N : list lead,
    dedupe_leads X = (E ++ N)%list
    /\ Forall (fun L => has_email_b L = true) E
    /\ Forall (fun L => has_email_b L = false) N
    /\ List.NoDup (map email_key E)
    /\ List.NoDup (map name_dom_key N).
Proof.
  rewrite dedupe_leads_groups.
  set (Ein := List.filter has_email_b X).
  set (Nin := List.filter (fun L => negb (has_email_b L)) X).
  destruct (group_from_nil email_key Ein) as (HEw & HEin & _).
  destruct (group_from_nil name_dom_key Nin) as (HNw & HNin & _).
  cbv zeta in HEw, HEin, HNw, HNin.
  exists (OrderedDict.values (group email_key Ein [])),
         (OrderedDict.values (group name_dom_key Nin [])).
  split; [reflexivity|].
  split; [|split; [|split]].
  - revert HEin. apply List.Forall_impl. intros L HL. now apply filter_In in HL.
  - revert HNin. apply List.Forall_impl. intros L HL.
    apply filter_In in HL as [_ HL]. now apply negb_true_iff.
  - now apply well_keyed_keys.
  - now apply well_keyed_keys.
Qed.

Lemma group_distinct {K : Type} `{EqDecision K} (key : lead -> K) (xs : list lead) :
  List.NoDup (map key xs) -> OrderedDict.values (group key xs []) = xs.
Proof.
  intros Hn. set (d := map (fun L => (key L, L)) xs).
  assert (Hv : OrderedDict.values d = xs).
  { unfold d, OrderedDict.values. rewrite map_map. simpl. apply map_id. }
  assert (Hw : well_keyed key ([] ++ d)%list).
  { split.
    - simpl. unfold d. rewrite Forall_map. rewrite List.Forall_forall. reflexivity.
    - simpl. unfold d, OrderedDict.keys. rewrite map_map. simpl. exact Hn. }
  rewrite <- Hv at 1. rewrite (group_values key d [] Hw). simpl. exact Hv.
Qed.

(** X13.  When no two records of the input share a key, [dedupe_leads] keeps
    them all: it returns the records with a normalized e-mail, in their input
    order, followed by the records without, in theirs. *)
Theorem dedupe_leads_distinct (X : list lead) :
  List.NoDup (map email_key (List.filter has_email_b X)) ->
  List.NoDup (map name_dom_key (List.filter (fun L => negb (has_email_b L)) X)) ->
  dedupe_leads X
  = (List.filter has_email_b X ++ List.filter (fun L => negb (has_email_b L)) X)%list.
Proof.
  intros HE HN. rewrite dedupe_leads_groups.
  now rewrite (group_distinct email_key _ HE), (group_distinct name_dom_key _ HN).
Qed.

Lemma or_empty_falsy (o : option string) : truthy o = false -> or_empty o = "".
Proof. destruct o as [[|c s]|]; [reflexivity | discriminate | reflexivity]. Qed.

Lemma NoDup_constant {A B : Type} (f : A -> B) (c : B) (l : list A) :
  List.NoDup (map f l) -> (forall x, In x l -> f x = c) -> (List.length l <= 1)%nat.
Proof.
  destruct l as [|x [|y l]]; simpl; intros Hn Hc; [lia | lia |].
  exfalso. inversion Hn as [|? ? Hx _]; subst. apply Hx.
  rewrite (Hc x), <- (Hc y); [now left | auto | auto].
Qed.

(** X14.  Records that have neither e-mail nor name nor company domain
    (these five entries missing or empty, as when the columns bear other
    names) all fall under one key: [dedupe_leads] returns at most one of
    them, whatever their other fields. *)
Theorem dedupe_leads_without_key_columns (X : list lead) :
  (forall L, In L X ->
     truthy (L !! "email") = false /\ truthy (L !! "full_name") = false
     /\ truthy (L !! "first_name") = false /\ truthy (L !! "last_name") = false
     /\ truthy (L !! "company_domain") = false) ->
  (List.length (dedupe_leads X) <= 1)%nat.
Proof.
  intros Hx. rewrite dedupe_leads_groups.
  assert (Hkeys : forall L, In L X ->
            has_email_b L = false /\ name_dom_key L = ("", "")).
  { intros L HL. destruct (Hx L HL) as (He & Hf & H1 & H2 & Hd).
    unfold has_email_b, email_key, name_dom_key.
    rewrite (or_empty_falsy _ He), (or_empty_falsy _ Hd), Hf.
    replace (default "" (L !! "first_name")) with "" by
      (destruct (L !! "first_name") as [[|? ?]|]; [reflexivity | discriminate | reflexivity]).
    replace (default "" (L !! "last_name")) with "" by
      (destruct (L !! "last_name") as [[|? ?]|]; [reflexivity | discriminate | reflexivity]).
    split; reflexivity. }
  replace (List.filter has_email_b X) with (@nil lead).
  2:{ symmetry. clear Hx. induction X as [|L X IH]; [reflexivity|]. simpl.
      destruct (Hkeys L) as [-> _]; [now left|]. apply IH. intros; apply Hkeys; now right. }
  simpl.
  set (N := List.filter (fun L => negb (has_email_b L)) X).
  destruct (group_from_nil name_dom_key N) as (Hw & Hin & _). cbv zeta in Hw, Hin.
  apply (NoDup_constant name_dom_key ("", "")); [now apply well_keyed_keys|].
  intros L HL. rewrite List.Forall_forall in Hin. apply Hin in HL.
  apply filter_In in HL as [HL _]. now apply Hkeys.
Qed.

Lemma dedupe_leads_distinct_three :
  dedupe_leads [lead_bo; lead_ann; lead_cy] = [lead_ann; lead_cy; lead_bo].
Proof.
  rewrite dedupe_leads_distinct; [reflexivity | |]; vm_compute;
    repeat constructor; simpl; intuition discriminate.
Defined.

Lemma dedupe_leads_capital_columns :
  (List.length (dedupe_leads [lead_capitals_1; lead_capitals_2]) <= 1)%nat.
Proof.
  apply dedupe_leads_without_key_columns.
  intros L [<- | [<- | []]]; repeat split; reflexivity.
Defined.

(** ** Missing and empty fields *)

Lemma truthy_or_empty (o : option string) : truthy o = negb (Str.is_empty (or_empty o)).
Proof. now destruct o as [[|c s]|]. Qed.

Lemma seniority_score_or_empty (o : option string) :
  seniority_score o = seniority_score (Some (or_empty o)).
Proof. now destruct o as [[|c s]|]. Qed.

Lemma email_validity_score_or_empty mx_lookup (l : lead) (mx_check : option bool) :
  email_validity_score mx_lookup l mx_check
  = email_validity_score mx_lookup {[ "email" := or_empty (l !! "email") ]} mx_check.
Proof.
  unfold email_validity_score. rewrite lookup_singleton_eq.
  now destruct (l !! "email") as [[|c s]|].
Qed.

Lemma email_signal_or_empty (l : lead) :
  email_signal l = email_signal {[ "email" := or_empty (l !! "email") ]}.
Proof.
  unfold email_signal. rewrite lookup_singleton_eq.
  now destruct (l !! "email") as [[|c s]|].
Qed.

Lemma revenue_signal_or_empty (l : lead) :
  revenue_signal l
  = revenue_signal {[ "estimated_revenue" := or_empty (l !! "estimated_revenue") ]}.
Proof.
  unfold revenue_signal. rewrite lookup_singleton_eq.
  now destruct (l !! "estimated_revenue") as [[|c s]|].
Qed.

Lemma compute_lead_score_same_fields tldextract mx_lookup (l l' : lead)
    (mx_check : option bool) :
  (forall k, or_empty (l' !! k) = or_empty (l !! k)) ->
  compute_lead_score tldextract mx_lookup l' mx_check
  = compute_lead_score tldextract mx_lookup l mx_check.
Proof.
  intros H.
  assert (Hc : completeness_score l' = completeness_score l).
  { unfold completeness_score. rewrite !truthy_or_empty. now rewrite !H. }
  assert (Hs : seniority_score (l' !! "job_title") = seniority_score (l !! "job_title")).
  { rewrite seniority_score_or_empty, H. symmetry. apply seniority_score_or_empty. }
  assert (He : email_validity_score mx_lookup l' mx_check
               = email_validity_score mx_lookup l mx_check).
  { rewrite email_validity_score_or_empty, H. symmetry.
    apply email_validity_score_or_empty. }
  assert (Hd : domain_match_score tldextract l' = domain_match_score tldextract l).
  { unfold domain_match_score. rewrite !truthy_or_empty. now rewrite !H. }
  assert (Hcs : company_signal_score l' = company_signal_score l).
  { unfold company_signal_score.
    rewrite email_signal_or_empty, revenue_signal_or_empty, !H.
    now rewrite <- email_signal_or_empty, <- revenue_signal_or_empty. }
  unfold compute_lead_score, raw_weighted. now rewrite Hc, Hs, He, Hd, Hcs.
Qed.

Lemma with_default_fields_or_empty (l : lead) (k : string) :
  or_empty (with_default_fields l !! k) = or_empty (l !! k).
Proof.
  unfold with_default_fields. generalize SCORED_FIELDS. intros fs. revert l.
  induction fs as [|f fs IH]; intros l; simpl; [reflexivity|].
  rewrite IH. destruct (l !! f) eqn:Hf; [reflexivity|].
  destruct (decide (f = k)) as [->|Hne].
  - now rewrite lookup_insert_eq, Hf.
  - now rewrite lookup_insert_ne.
Qed.

(** X15.  The score does not tell a missing field from an empty one: two
    leads that agree on every field, a missing one counting as the empty
    string, get the same score and breakdown.  So the empty defaults that
    [score_leads] and [process_file] insert before scoring change nothing. *)
Theorem missing_fields_score_as_empty tldextract mx_lookup (l : lead)
    (mx_check : option bool) :
  (forall l' : lead,
     (forall k, or_empty (l' !! k) = or_empty (l !! k)) ->
     compute_lead_score tldextract mx_lookup l' mx_check
     = compute_lead_score tldextract mx_lookup l mx_check)
  /\ compute_lead_score tldextract mx_lookup (with_default_fields l) mx_check
     = compute_lead_score tldextract mx_lookup l mx_check.
Proof.
  split.
  - intros l'. apply compute_lead_score_same_fields.
  - apply compute_lead_score_same_fields. apply with_default_fields_or_empty.
Qed.

(** ** Scoring a batch *)

Lemma lower_keys_recased (g : string -> string) (L : row) :
  (forall k, Str.lower (g k) = Str.lower k) ->
  lower_keys (map (fun kv => (g (fst kv), snd kv)) L) = lower_keys L.
Proof.
  intros Hg. unfold lower_keys. generalize (∅ : lead).
  induction L as [|[k v] L IH]; intros m; simpl; [reflexivity|].
  now rewrite Hg, IH.
Qed.

(** X16.  Scoring reads the column names without their case: a row whose
    column names are respelled with other capitals is scored as the row
    itself. *)
Theorem score_one_ignores_case tldextract mx_lookup (mx_check : option bool)
    (g : string -> string) (L : row) :
  (forall k, Str.lower (g k) = Str.lower k) ->
  score_one tldextract mx_lookup mx_check (map (fun kv => (g (fst kv), snd kv)) L)
  = score_one tldextract mx_lookup mx_check L.
Proof. intros Hg. unfold score_one. now rewrite (lower_keys_recased g L Hg). Qed.




Lemma score_one_of_capitals :
  score_one None no_mx None
    (map (fun kv => (Str.lower (fst kv), snd kv)) row_capitals)
  = score_one None no_mx None row_capitals.
Proof. apply score_one_ignores_case. intros k. apply lower_idem. Defined.

(** ** Rows read from a file *)

Lemma strip_idem (s : string) : Str.strip (Str.strip s) = Str.strip s.
Proof.
  unfold Str.strip at 1.
  rewrite lstrip_clean by (apply starts_clean_rstrip, starts_clean_lstrip).
  apply rstrip_idem.
Qed.

Lemma strip_row_stripped (items : row) : stripped (strip_row items).
Proof.
  unfold strip_row.
  assert (H0 : stripped (∅ : lead)) by (intros k v Hk; now rewrite lookup_empty in Hk).
  revert H0. generalize (∅ : lead).
  induction items as [|[k v] items IH]; intros m Hm; simpl; [exact Hm|].
  apply IH. intros j w. destruct (decide (Str.strip k = j)) as [<-|Hne].
  - rewrite lookup_insert_eq. intros [= <-]. split; apply strip_idem.
  - rewrite lookup_insert_ne by exact Hne. apply Hm.
Qed.

Lemma unify_columns_lookup (r : lead) (k : string) :
  unify_columns r !! k
  = if decide (k = "company_domain") then
      if bool_decide (is_Some (r !! "website")) && negb (truthy (r !! "company_domain"))
      then r !! "website" else r !! "company_domain"
    else if decide (k = "full_name") then
      if bool_decide (is_Some (r !! "full name")) && negb (truthy (r !! "full_name"))
      then r !! "full name" else r !! "full_name"
    else r !! k.
Proof.
  assert (Hsome : forall o : option string,
            bool_decide (is_Some o) = true -> Some (or_empty o) = o).
  { intros [v|]; [reflexivity|]. intros H. apply bool_decide_eq_true in H.
    now destruct H. }
  unfold unify_columns.
  destruct (bool_decide (is_Some (r !! "website"))) eqn:Hw,
    (truthy (r !! "company_domain")) eqn:Hc; simpl;
    rewrite ?lookup_insert_ne by discriminate;
    destruct (bool_decide (is_Some (r !! "full name"))) eqn:Hn,
      (truthy (r !! "full_name")) eqn:Hf; simpl;
    repeat case_decide; subst; try discriminate;
    rewrite ?lookup_insert_eq, ?lookup_insert_ne by congruence;
    rewrite ?lookup_insert_eq, ?lookup_insert_ne by congruence;
    rewrite ?Hsome by assumption; reflexivity.
Qed.

(** X18.  Taking over the alternative column names is idempotent and never
    overwrites: [company_domain] gets the value of [website] only when that
    column exists and [company_domain] is missing or empty (likewise
    [full_name] from [full name]), every other entry stays as it is, and a
    second pass changes nothing. *)
Theorem unify_columns_spec (r : lead) :
  unify_columns (unify_columns r) = unify_columns r
  /\ (truthy (r !! "company_domain") = true ->
      unify_columns r !! "company_domain" = r !! "company_domain")
  /\ (truthy (r !! "full_name") = true ->
      unify_columns r !! "full_name" = r !! "full_name")
  /\ (forall k, k <> "company_domain" -> k <> "full_name" ->
      unify_columns r !! k = r !! k)
  /\ truthy (unify_columns r !! "company_domain")
     = truthy (r !! "company_domain") || truthy (r !! "website")
  /\ truthy (unify_columns r !! "full_name")
     = truthy (r !! "full_name") || truthy (r !! "full name").
Proof.
  split; [|split; [|split; [|split; [|split]]]].
  - apply map_eq. intros k. rewrite !unify_columns_lookup.
    destruct (decide (k = "company_domain")) as [->|Hc].
    + simpl. destruct (bool_decide (is_Some (r !! "website"))) eqn:Hw; simpl;
        [|reflexivity].
      destruct (truthy (r !! "company_domain")) eqn:Ht; simpl.
      * now rewrite Ht.
      * now destruct (truthy (r !! "website")).
    + destruct (decide (k = "full_name")) as [->|Hf]; [|reflexivity].
      simpl. destruct (bool_decide (is_Some (r !! "full name"))) eqn:Hw; simpl;
        [|reflexivity].
      destruct (truthy (r !! "full_name")) eqn:Ht; simpl.
      * now rewrite Ht.
      * now destruct (truthy (r !! "full name")).
  - intros Ht. rewrite unify_columns_lookup. simpl. now rewrite Ht, andb_false_r.
  - intros Ht. rewrite unify_columns_lookup. simpl. now rewrite Ht, andb_false_r.
  - intros k Hc Hf. rewrite unify_columns_lookup.
    destruct (decide (k = "company_domain")); [contradiction|].
    destruct (decide (k = "full_name")); [contradiction | reflexivity].
  - rewrite unify_columns_lookup. simpl.
    destruct (r !! "website") as [[|? ?]|], (r !! "company_domain") as [[|? ?]|];
      reflexivity.
  - rewrite unify_columns_lookup. simpl.
    destruct (r !! "full name") as [[|? ?]|], (r !! "full_name") as [[|? ?]|];
      reflexivity.
Qed.

(** X19.  Every row that [read_csv_to_dicts] returns has its keys and its
    values free of white space at both ends, the entries it takes over from
    [website] and [full name] included. *)
Theorem rows_of_reader_stripped (reader : list row) :
  Forall (fun r : lead =>
            forall k v, r !! k = Some v -> Str.strip k = k /\ Str.strip v = v)
         (rows_of_reader reader).
Proof.
  unfold rows_of_reader. rewrite Forall_map, List.Forall_forall. intros items _.
  pose proof (strip_row_stripped items) as Hs. set (m := strip_row items) in *.
  intros k v. rewrite unify_columns_lookup.
  destruct (decide (k = "company_domain")) as [->|Hc].
  - destruct (_ && _); intros Hv; (split; [reflexivity|]); now apply Hs in Hv.
  - destruct (decide (k = "full_name")) as [->|Hf]; [|apply Hs].
    destruct (_ && _); intros Hv; (split; [reflexivity|]); now apply Hs in Hv.
Qed.

(** ** The header of a file written *)

Lemma add_key_spec (keys : list string) (k : string) :
  List.NoDup keys ->
  List.NoDup (add_key keys k) /\ forall j, In j (add_key keys k) <-> In j keys \/ j = k.
Proof.
  intros Hn. unfold add_key. case_bool_decide as Hk.
  - apply list_elem_of_In in Hk. split; [exact Hn|].
    intros j. split; [now left | intros [H | ->]; assumption].
  - split.
    + apply NoDup_snoc; [exact Hn|]. intros Hin. apply Hk. now apply list_elem_of_In.
    + intros j. rewrite in_app_iff. simpl. intuition.
Qed.

Lemma add_keys_spec (r : list string) :
  forall keys, List.NoDup keys ->
    List.NoDup (fold_left add_key r keys)
    /\ forall j, In j (fold_left add_key r keys) <-> In j keys \/ In j r.
Proof.
  induction r as [|k r IH]; intros keys Hn; simpl.
  - split; [exact Hn | intuition].
  - destruct (add_key_spec keys k Hn) as [Hn' Hin'].
    destruct (IH _ Hn') as [Hn'' Hin'']. split; [exact Hn''|].
    intros j. rewrite Hin'', Hin'. intuition.
Qed.

(** X20.  The header that [write_dicts_to_csv] computes holds every key of
    every row, nothing else, and no key twice. *)
Theorem union_of_keys_spec (rows : list (list string)) :
  List.NoDup (union_of_keys rows)
  /\ forall k, In k (union_of_keys rows) <-> exists r, In r rows /\ In k r.
Proof.
  unfold union_of_keys.
  assert (H : forall keys, List.NoDup keys ->
            List.NoDup (fold_left (fun keys r => fold_left add_key r keys) rows keys)
            /\ forall k,
                 In k (fold_left (fun keys r => fold_left add_key r keys) rows keys)
                 <-> In k keys \/ exists r, In r rows /\ In k r).
  { induction rows as [|r rows IH]; intros keys Hn; simpl.
    - split; [exact Hn|]. intros k. split; [now left|].
      intros [H | (r & [] & _)]. exact H.
    - destruct (add_keys_spec r keys Hn) as [Hn' Hin'].
      destruct (IH _ Hn') as [Hn'' Hin'']. split; [exact Hn''|].
      intros k. rewrite Hin'', Hin'. split.
      + intros [[H | H] | (r' & Hr' & Hk)]; [now left | right | right].
        * exists r. split; [now left | exact H].
        * exists r'. split; [now right | exact Hk].
      + intros [H | (r' & [<- | Hr'] & Hk)]; [now left; left | now left; right |].
        right. now exists r'. }
  destruct (H [] (List.NoDup_nil _)) as [Hn Hin]. split; [exact Hn|].
  intros k. rewrite Hin. split; [intros [[] | Hk]; exact Hk | now right].
Qed.

(** ** The matcher of [email_syntax_valid] *)

Lemma append_cons (c : ascii) (s t : string) : String c s +:+ t = String c (s +:+ t).
Proof. reflexivity. Qed.

Lemma append_nil_l (t : string) : "" +:+ t = t.
Proof. reflexivity. Qed.

Lemma append_assoc (s t u : string) : (s +:+ t) +:+ u = s +:+ (t +:+ u).
Proof.
  induction s as [|c s IH]; [reflexivity|]. rewrite !append_cons. now rewrite IH.
Qed.

Lemma append_eq_nil (s t : string) : s +:+ t = "" -> s = "" /\ t = "".
Proof. destruct s; [now split | discriminate]. Qed.

Lemma matches_void (s : string) : ~ matches Regex.Void s.
Proof. intros H. inversion H. Qed.

Lemma matches_cat_inv (a b : Regex.re) (s : string) :
  matches (Regex.Cat a b) s ->
  exists s1 s2, s = s1 +:+ s2 /\ matches a s1 /\ matches b s2.
Proof. intros H. inversion H; subst. eauto. Qed.

Lemma matches_alt_inv (a b : Regex.re) (s : string) :
  matches (Regex.Alt a b) s -> matches a s \/ matches b s.
Proof. intros H. inversion H; subst; auto. Qed.

Lemma nullable_matches (r : Regex.re) : Regex.nullable r = true <-> matches r "".
Proof.
  split.
  - induction r; simpl; intros H; try discriminate.
    + constructor.
    + apply andb_true_iff in H as [H1 H2].
      change "" with ("" +:+ ""). constructor; auto.
    + apply orb_true_iff in H as [H | H]; [apply M_alt_l | apply M_alt_r]; auto.
    + constructor.
  - intros H. remember "" as s eqn:Hs. induction H; simpl; try reflexivity.
    + discriminate.
    + apply append_eq_nil in Hs as [-> ->]. rewrite IHmatches1, IHmatches2; auto.
    + rewrite IHmatches; auto.
    + rewrite IHmatches; auto. apply orb_true_r.
Qed.

Lemma matches_cat_smart (a b : Regex.re) (s : string) :
  matches (Regex.cat a b) s <-> matches (Regex.Cat a b) s.
Proof.
  destruct a; simpl; try reflexivity. split; intros H.
  - now apply matches_void in H.
  - apply matches_cat_inv in H as (s1 & s2 & _ & H & _). now apply matches_void in H.
Qed.

Lemma matches_alt_smart (a b : Regex.re) (s : string) :
  matches (Regex.alt a b) s <-> matches (Regex.Alt a b) s.
Proof.
  assert (Hl : matches b s <-> matches (Regex.Alt Regex.Void b) s).
  { split; [apply M_alt_r|]. intros H. apply matches_alt_inv in H as [H | H];
      [now apply matches_void in H | exact H]. }
  assert (Hr : matches a s <-> matches (Regex.Alt a Regex.Void) s).
  { split; [apply M_alt_l|]. intros H. apply matches_alt_inv in H as [H | H];
      [exact H | now apply matches_void in H]. }
  destruct a; simpl; try exact Hl; destruct b; simpl; try exact Hr; reflexivity.
Qed.

Lemma matches_star_cons (a : Regex.re) (c : ascii) (s : string) :
  matches (Regex.Star a) (String c s) ->
  exists s1 s2, s = s1 +:+ s2 /\ matches a (String c s1) /\ matches (Regex.Star a) s2.
Proof.
  intros H. remember (Regex.Star a) as r eqn:Hr. remember (String c s) as t eqn:Ht.
  revert s Ht. induction H; intros s' Ht; try discriminate.
  injection Hr as ->. destruct s1 as [|c1 s1].
  - rewrite append_nil_l in Ht. now apply IHmatches2.
  - rewrite append_cons in Ht. injection Ht as -> <-. eauto.
Qed.

(** The derivative by [c] matches what is left of a match that starts with
    [c]. *)
Lemma deriv_matches (r : Regex.re) :
  forall c s, matches (Regex.deriv c r) s <-> matches r (String c s).
Proof.
  induction r as [| |f|a IHa b IHb|a IHa b IHb|a IHa]; intros c s; simpl.
  - split; intros H; inversion H.
  - split; intros H; inversion H.
  - destruct (f c) eqn:Hf; split; intros H.
    + inversion H; subst. now constructor.
    + inversion H; subst. constructor.
    + now apply matches_void in H.
    + inversion H; subst. congruence.
  - assert (Hcat : matches (Regex.cat (Regex.deriv c a) b) s ->
                   matches (Regex.Cat a b) (String c s)).
    { intros H. apply matches_cat_smart, matches_cat_inv in H as (s1 & s2 & -> & H1 & H2).
      rewrite <- append_cons. constructor; [now apply IHa | exact H2]. }
    assert (Hinv : matches (Regex.Cat a b) (String c s) ->
                   matches (Regex.cat (Regex.deriv c a) b) s
                   \/ (matches a "" /\ matches b (String c s))).
    { intros H. apply matches_cat_inv in H as (s1 & s2 & Hs & H1 & H2).
      destruct s1 as [|c1 s1].
      - right. rewrite append_nil_l in Hs. subst s2. now split.
      - left. rewrite append_cons in Hs. injection Hs as <- ->.
        apply matches_cat_smart. constructor; [now apply IHa | exact H2]. }
    destruct (Regex.nullable a) eqn:Hn.
    + rewrite matches_alt_smart. split.
      * intros H. apply matches_alt_inv in H as [H | H]; [now apply Hcat|].
        rewrite <- (append_nil_l (String c s)). constructor; [|now apply IHb].
        now apply nullable_matches.
      * intros H. apply Hinv in H as [H | [_ H]];
          [now apply M_alt_l | apply M_alt_r; now apply IHb].
    + split; [exact Hcat|]. intros H. apply Hinv in H as [H | [H _]]; [exact H|].
      apply nullable_matches in H. congruence.
  - rewrite matches_alt_smart. split; intros H.
    + apply matches_alt_inv in H as [H | H];
        [apply M_alt_l; now apply IHa | apply M_alt_r; now apply IHb].
    + apply matches_alt_inv in H as [H | H];
        [apply M_alt_l; now apply IHa | apply M_alt_r; now apply IHb].
  - rewrite matches_cat_smart. split; intros H.
    + apply matches_cat_inv in H as (s1 & s2 & -> & H1 & H2).
      rewrite <- append_cons. constructor; [now apply IHa | exact H2].
    + apply matches_star_cons in H as (s1 & s2 & -> & H1 & H2).
      constructor; [now apply IHa | exact H2].
Qed.

(** The matcher decides the language. *)
Lemma fullmatch_matches (s : string) :
  forall r, Regex.fullmatch r s = true <-> matches r s.
Proof.
  induction s as [|c s IH]; intros r; simpl.
  - apply nullable_matches.
  - rewrite IH. apply deriv_matches.
Qed.

Lemma matches_class_inv (f : ascii -> bool) (s : string) :
  matches (Regex.Class f) s -> exists c, s = String c "" /\ f c = true.
Proof. intros H. inversion H; subst. eauto. Qed.

Lemma matches_star_class (f : ascii -> bool) (s : string) :
  matches (Regex.Star (Regex.Class f)) s <-> Str.all f s = true.
Proof.
  split.
  - intros H. remember (Regex.Star (Regex.Class f)) as r eqn:Hr.
    induction H; try discriminate; [reflexivity|].
    injection Hr as ->. apply matches_class_inv in H as (c & -> & Hc).
    rewrite append_cons, append_nil_l. simpl. rewrite Hc. now apply IHmatches2.
  - induction s as [|c s IH]; simpl; [constructor|].
    rewrite andb_true_iff. intros [Hc Hs].
    change (String c s) with (String c "" +:+ s).
    constructor; [now constructor | now apply IH].
Qed.

Lemma matches_plus_class (f : ascii -> bool) (s : string) :
  matches (Regex.plus (Regex.Class f)) s <-> s <> "" /\ Str.all f s = true.
Proof.
  unfold Regex.plus. split.
  - intros H. apply matches_cat_inv in H as (s1 & s2 & -> & H1 & H2).
    apply matches_class_inv in H1 as (c & -> & Hc). apply matches_star_class in H2.
    rewrite append_cons, append_nil_l. simpl. rewrite Hc, H2. now split.
  - intros [Hne Hs]. destruct s as [|c s]; [congruence|]. simpl in Hs.
    apply andb_true_iff in Hs as [Hc Hs].
    change (String c s) with (String c "" +:+ s).
    constructor; [now constructor | now apply matches_star_class].
Qed.

Lemma matches_char (x : ascii) (s : string) :
  matches (Regex.Class (Ascii.eqb x)) s <-> s = String x "".
Proof.
  split.
  - intros H. apply matches_class_inv in H as (c & -> & Hc).
    apply Ascii.eqb_eq in Hc. now subst.
  - intros ->. constructor. apply Ascii.eqb_refl.
Qed.

(** The strings of the e-mail pattern: a local part, ['@'], a host, ['.'] and
    a top-level domain of two letters or more. *)
Lemma email_pattern_matches (s : string) :
  matches email_pattern s <->
  exists L H T,
    s = L +:+ "@" +:+ H +:+ "." +:+ T
    /\ L <> "" /\ Str.all is_local_char L = true
    /\ H <> "" /\ Str.all is_host_char H = true
    /\ (2 <= String.length T)%nat /\ Str.all Chars.is_ascii_letter T = true.
Proof.
  change email_pattern with
    (Regex.Cat (Regex.plus (Regex.Class is_local_char))
       (Regex.Cat (Regex.Class (Ascii.eqb "@"))
          (Regex.Cat (Regex.plus (Regex.Class is_host_char))
             (Regex.Cat (Regex.Class (Ascii.eqb "."))
                (Regex.Cat (Regex.Class Chars.is_ascii_letter)
                   (Regex.plus (Regex.Class Chars.is_ascii_letter))))))).
  split.
  - intros H.
    apply matches_cat_inv in H as (L & s1 & -> & HL & H).
    apply matches_cat_inv in H as (a & s2 & -> & Ha & H).
    apply matches_cat_inv in H as (Hh & s3 & -> & HH & H).
    apply matches_cat_inv in H as (d & s4 & -> & Hd & H).
    apply matches_cat_inv in H as (t1 & t2 & -> & Ht1 & Ht2).
    apply matches_plus_class in HL as [HL1 HL2]. apply matches_char in Ha as ->.
    apply matches_plus_class in HH as [HH1 HH2]. apply matches_char in Hd as ->.
    apply matches_class_inv in Ht1 as (c & -> & Hc).
    apply matches_plus_class in Ht2 as [Ht1 Ht2].
    exists L, Hh, (String c t2). split; [reflexivity|].
    repeat (split; [assumption|]). split.
    + destruct t2; [congruence | simpl; lia].
    + simpl. now rewrite Hc, Ht2.
  - intros (L & H & T & -> & HL1 & HL2 & HH1 & HH2 & HT1 & HT2).
    destruct T as [|c T]; [simpl in HT1; lia|]. simpl in HT2.
    apply andb_true_iff in HT2 as [Hc HT2].
    constructor; [now apply matches_plus_class|].
    change ("@" +:+ H +:+ "." +:+ String c T)
      with (String "@" "" +:+ (H +:+ (String "." "" +:+ (String c "" +:+ T)))).
    constructor; [now apply matches_char|].
    constructor; [now apply matches_plus_class|].
    constructor; [now apply matches_char|].
    constructor; [now constructor|].
    apply matches_plus_class. split; [|exact HT2].
    destruct T; [simpl in HT1; lia | discriminate].
Qed.

(** X22.  [email_syntax_valid] accepts exactly the strings that, once
    stripped, read [local@host.tld]: a local part that is not empty, of
    ASCII letters, digits and [._%+-]; a host that is not empty, of ASCII
    letters, digits, dots and hyphens; and a last label of at least two ASCII
    letters. *)
Theorem email_syntax_valid_shape (email : string) :
  email_syntax_valid email = true <->
  exists L H T,
    Str.strip email = L +:+ "@" +:+ H +:+ "." +:+ T
    /\ L <> "" /\ Str.all is_local_char L = true
    /\ H <> "" /\ Str.all is_host_char H = true
    /\ (2 <= String.length T)%nat /\ Str.all Chars.is_ascii_letter T = true.
Proof.
  unfold email_syntax_valid. destruct email as [|c e].
  - simpl. split; [discriminate|]. intros (L & H & T & Hs & HL & _).
    destruct L; [congruence | discriminate].
  - simpl Str.is_empty. cbv iota. rewrite fullmatch_matches.
    apply email_pattern_matches.
Qed.

(** ** The domain of an e-mail address *)

Lemma lower_append (a b : string) : Str.lower (a +:+ b) = Str.lower a +:+ Str.lower b.
Proof.
  induction a as [|c a IH]; [reflexivity|].
  rewrite append_cons. simpl. now rewrite IH.
Qed.


Lemma contains_lower_at (s : string) :
  Str.contains "@" (Str.lower s) = Str.contains "@" s.
Proof.
  induction s as [|c s IH]; simpl; [reflexivity|]. rewrite IH. f_equal.
  each_char c; reflexivity.
Qed.

Lemma split_absent (sep : ascii) (s : string) :
  Str.contains sep s = false -> Str.split sep s = [s].
Proof.
  induction s as [|c s IH]; simpl; [reflexivity|].
  rewrite orb_false_iff. intros [-> Hs]. now rewrite (IH Hs).
Qed.

Lemma split_append_sep (sep : ascii) (a b : string) :
  Str.contains sep a = false ->
  Str.split sep (a +:+ String sep b) = a :: Str.split sep b.
Proof.
  induction a as [|c a IH].
  - intros _. rewrite append_nil_l. simpl. now rewrite Ascii.eqb_refl.
  - simpl Str.contains. rewrite orb_false_iff. intros [Hc Ha].
    rewrite append_cons. simpl. now rewrite Hc, (IH Ha).
Qed.

Lemma contains_lstrip (c : ascii) (s : string) :
  Str.contains c (Str.lstrip s) = true -> Str.contains c s = true.
Proof.
  induction s as [|a s IH]; simpl; [discriminate|].
  destruct (Chars.is_space a); [|now simpl]. intros H. rewrite (IH H). apply orb_true_r.
Qed.

Lemma contains_rstrip (c : ascii) (s : string) :
  Str.contains c (Str.rstrip s) = true -> Str.contains c s = true.
Proof.
  induction s as [|a s IH]; simpl; [discriminate|].
  destruct (Str.rstrip s) as [|b r].
  - destruct (Chars.is_space a); simpl; [discriminate|].
    rewrite orb_false_r. intros ->. reflexivity.
  - simpl. simpl in IH. destruct (Ascii.eqb a c); [reflexivity|]. simpl. exact IH.
Qed.

Lemma contains_strip (c : ascii) (s : string) :
  Str.contains c (Str.strip s) = true -> Str.contains c s = true.
Proof. intros H. now apply contains_lstrip, contains_rstrip. Qed.

Lemma extract_domain_from_email_parts (email L D : string) :
  Str.strip email = L +:+ "@" +:+ D ->
  Str.contains "@" L = false -> Str.contains "@" D = false ->
  extract_domain_from_email email = Str.lower D.
Proof.
  intros Hs HL HD. unfold extract_domain_from_email.
  destruct email as [|c e]; [destruct L; discriminate|].
  simpl Str.is_empty. cbv iota. rewrite Hs, lower_append.
  change (Str.lower ("@" +:+ D)) with (String "@" (Str.lower D)).
  rewrite split_append_sep by now rewrite contains_lower_at.
  rewrite split_absent by now rewrite contains_lower_at.
  reflexivity.
Qed.

(** X23.  [extract_domain_from_email] on the stripped address: with exactly
    one ['@'] it returns what follows it, in lower case; with none it returns
    the empty string.  What it returns is in lower case and holds no ['@']. *)
Theorem extract_domain_from_email_spec (email : string) :
  (forall L D, Str.strip email = L +:+ "@" +:+ D ->
     Str.contains "@" L = false -> Str.contains "@" D = false ->
     extract_domain_from_email email = Str.lower D)
  /\ (Str.contains "@" email = false -> extract_domain_from_email email = "")
  /\ Str.contains "@" (extract_domain_from_email email) = false
  /\ Str.lower (extract_domain_from_email email) = extract_domain_from_email email.
Proof.
  split; [intros L D; apply extract_domain_from_email_parts|].
  split; [|split; [apply extract_domain_from_email_no_at
                  | apply extract_domain_from_email_lowered]].
  intros Hno. unfold extract_domain_from_email.
  destruct (Str.is_empty email); [reflexivity|].
  rewrite split_absent; [reflexivity|]. rewrite contains_lower_at.
  destruct (Str.contains "@" (Str.strip email)) eqn:Hc; [|reflexivity].
  apply contains_strip in Hc. congruence.
Qed.



(** ** The domain of a URL *)

Lemma last_two_incl {A} (l : list A) (x : A) : In x (Str.last_two l) -> In x l.
Proof.
  induction l as [|a [|b [|c t]] IH]; simpl; auto.
  intros H. right. now apply IH.
Qed.

(** The last two labels: one label, or two with a dot between them; the
    labels hold no dot, and keep the lower case of the host. *)
Lemma last_two_labels_shape (host : string) :
  exists a b,
    (last_two_labels host = a \/ last_two_labels host = a +:+ "." +:+ b)
    /\ Str.contains "." a = false /\ Str.contains "." b = false
    /\ (Str.lower host = host -> Str.lower (last_two_labels host) = last_two_labels host).
Proof.
  unfold last_two_labels.
  assert (Hp : forall p, In p (Str.last_two (Str.split "." host)) ->
                 Str.contains "." p = false
                 /\ (Str.lower host = host -> Str.lower p = p)).
  { intros p Hin. apply last_two_incl in Hin. split.
    - exact (split_pieces_no_sep "." _ _ Hin).
    - intros Hl. apply lower_fixed.
      apply (split_pieces_all is_lowered "." host p); [|exact Hin].
      rewrite <- Hl. apply lower_is_lowered. }
  destruct (last_two_shape (Str.split "." host) (split_nonempty "." host))
    as [(a & _ & Hl) | (a & b & Hl)]; rewrite Hl in *.
  - exists a, "". simpl. destruct (Hp a) as [Ha Hla]; [now left|]. auto.
  - exists a, b. destruct (Hp a) as [Ha Hla]; [now left|].
    destruct (Hp b) as [Hb Hlb]; [right; now left|].
    split; [right; reflexivity|]. split; [exact Ha|]. split; [exact Hb|].
    intros Hh. simpl. rewrite lower_append.
    change (Str.lower ("." +:+ b)) with (String "." (Str.lower b)).
    now rewrite (Hla Hh), (Hlb Hh).
Qed.

Lemma extract_domain_from_url_is_labels (url : string) :
  exists host, extract_domain_from_url None url = last_two_labels (Str.lower host).
Proof.
  unfold extract_domain_from_url.
  destruct (Str.is_empty url); [now exists ""|].
  destruct (Str.is_empty (Str.strip url)); [now exists ""|].
  eexists. apply url_fallback_is_last_two_labels.
Qed.

(** X25.  Without [tldextract], what [extract_domain_from_url] returns for
    any string is in lower case and has at most two labels: it is one label
    without a dot, or two such labels joined by a dot.  For an empty or blank
    string it is empty. *)
Theorem extract_domain_from_url_labels (url : string) :
  (exists a b,
     (extract_domain_from_url None url = a
      \/ extract_domain_from_url None url = a +:+ "." +:+ b)
     /\ Str.contains "." a = false /\ Str.contains "." b = false)
  /\ Str.lower (extract_domain_from_url None url) = extract_domain_from_url None url
  /\ (Str.strip url = "" -> extract_domain_from_url None url = "").
Proof.
  destruct (extract_domain_from_url_is_labels url) as [host Hh].
  destruct (last_two_labels_shape (Str.lower host)) as (a & b & Hs & Ha & Hb & Hl).
  split; [|split].
  - rewrite Hh. exists a, b. auto.
  - rewrite Hh. apply Hl, lower_idem.
  - intros Hs0. unfold extract_domain_from_url.
    destruct (Str.is_empty url); [reflexivity|]. now rewrite Hs0.
Qed.

Lemma rstrip_append (a b : string) :
  Str.rstrip b <> "" -> Str.rstrip (a +:+ b) = a +:+ Str.rstrip b.
Proof.
  intros Hb. induction a as [|c a IH]; [reflexivity|].
  rewrite !append_cons. simpl. rewrite IH.
  destruct (a +:+ Str.rstrip b) eqn:He; [|reflexivity].
  apply append_eq_nil in He as [_ He]. congruence.
Qed.

Lemma take_netloc_append (h t : string) :
  Str.all (fun c => negb (Url.is_netloc_end c)) h = true ->
  t = "" \/ Url.head_is Url.is_netloc_end t = true ->
  Url.take_netloc (h +:+ t) = h.
Proof.
  intros Hh Ht. induction h as [|c h IH].
  - rewrite append_nil_l. destruct Ht as [-> | Ht]; [reflexivity|].
    destruct t as [|c t]; [discriminate|]. simpl in *. now rewrite Ht.
  - simpl in Hh. apply andb_true_iff in Hh as [Hc Hh]. apply negb_true_iff in Hc.
    rewrite append_cons. simpl. now rewrite Hc, (IH Hh).
Qed.

Lemma plain_host_netloc (h : string) :
  plain_host h = true -> Str.all (fun c => negb (Url.is_netloc_end c)) h = true.
Proof. apply all_impl. intros c. each_char c; vm_compute; congruence. Qed.

Lemma strip_prefix_append (p s r : string) :
  Str.strip_prefix p s = Some r -> s = p +:+ r.
Proof.
  revert s. induction p as [|a p IH]; intros s; simpl.
  - now intros [= ->].
  - destruct s as [|b s]; [discriminate|].
    destruct (Ascii.eqb_spec a b) as [->|]; [|discriminate].
    intros H. rewrite append_cons. now rewrite (IH _ H).
Qed.

Lemma hostname_of_netloc_plain (h : string) :
  plain_host h = true -> h <> "" -> Url.hostname_of_netloc h = Some (Str.lower h).
Proof.
  intros Hp Hne. unfold Url.hostname_of_netloc.
  rewrite (after_last_absent "@" h (plain_host_free "@" h Hp eq_refl)).
  rewrite (after_absent "[" h (plain_host_free "[" h Hp eq_refl)).
  rewrite (before_absent ":" h (plain_host_free ":" h Hp eq_refl)).
  rewrite (before_absent "%" h (plain_host_free "%" h Hp eq_refl)).
  rewrite (after_absent "%" h (plain_host_free "%" h Hp eq_refl)).
  destruct h; [congruence|]. simpl Str.is_empty. cbv iota.
  now rewrite append_empty_r.
Qed.

(** A bare host followed by a path, a query or a fragment does not start
    with a scheme. *)
Lemma host_and_tail_no_scheme (h t : string) :
  plain_host h = true ->
  t = "" \/ Url.head_is Url.is_netloc_end t = true ->
  Str.startswith "http://" (h +:+ t) = false
  /\ Str.startswith "https://" (h +:+ t) = false.
Proof.
  intros Hp Ht.
  pose proof (take_netloc_append h t (plain_host_netloc h Hp) Ht) as Hn.
  pose proof (plain_host_free ":" h Hp eq_refl) as Hc.
  unfold Str.startswith. split.
  - destruct (Str.strip_prefix "http://" (h +:+ t)) as [r|] eqn:Hr; [|reflexivity].
    apply strip_prefix_append in Hr. rewrite Hr in Hn. simpl in Hn.
    rewrite <- Hn in Hc. discriminate.
  - destruct (Str.strip_prefix "https://" (h +:+ t)) as [r|] eqn:Hr; [|reflexivity].
    apply strip_prefix_append in Hr. rewrite Hr in Hn. simpl in Hn.
    rewrite <- Hn in Hc. discriminate.
Qed.

Lemma hostname_with_tail (scheme h t : string) :
  scheme = "http://" \/ scheme = "https://" ->
  plain_host h = true -> h <> "" ->
  t = "" \/ Url.head_is Url.is_netloc_end t = true ->
  Url.hostname (scheme +:+ h +:+ t) = Returns (Some (Str.lower h)).
Proof.
  intros Hs Hp Hne Ht.
  assert (Hd : Str.strip_prefix "//" (Url.drop_scheme (scheme +:+ h +:+ t))
               = Some (h +:+ t)) by (destruct Hs as [-> | ->]; reflexivity).
  unfold Url.hostname, Url.netloc. rewrite Hd.
  rewrite (take_netloc_append h t (plain_host_netloc h Hp) Ht).
  rewrite (plain_host_free "[" h Hp eq_refl), (plain_host_free "]" h Hp eq_refl).
  simpl xorb. cbv iota. now rewrite hostname_of_netloc_plain.
Qed.

(** X26.  Only the host of a URL counts: a bare host name, with or without
    [http://] or [https://] in front and a path, query or fragment behind,
    gives the last two labels of the host in lower case. *)
Theorem extract_domain_from_url_forms (scheme h tail : string) :
  scheme = "" \/ scheme = "http://" \/ scheme = "https://" ->
  plain_host h = true -> h <> "" ->
  tail = "" \/ Url.head_is Url.is_netloc_end tail = true ->
  extract_domain_from_url None (scheme +:+ h +:+ tail) = last_two_labels (Str.lower h).
Proof.
  intros Hs Hp Hne Ht.
  (* what stripping leaves of the tail *)
  assert (Htail : Str.rstrip tail = ""
                  \/ Url.head_is Url.is_netloc_end (Str.rstrip tail) = true).
  { destruct Ht as [-> | Ht]; [now left|]. right.
    destruct tail as [|c tail]; [discriminate|]. simpl in Ht. simpl Str.rstrip.
    assert (Hc : Chars.is_space c = false)
      by (revert Ht; each_char c; vm_compute; congruence).
    rewrite Hc. destruct (Str.rstrip tail); simpl; exact Ht. }
  assert (Hht : Str.rstrip (h +:+ tail) = h +:+ Str.rstrip tail).
  { destruct (Str.rstrip tail) as [|c r] eqn:Hr.
    - rewrite append_empty_r.
      rewrite <- (rstrip_no_space h (plain_host_no_space h Hp)) at 2.
      clear -Hr. induction h as [|c h IH]; [exact Hr|].
      rewrite append_cons. simpl. now rewrite IH.
    - rewrite <- Hr. apply rstrip_append. rewrite Hr. discriminate. }
  set (t := Str.rstrip tail) in *.
  assert (Hne' : h +:+ t <> "") by (destruct h; [congruence | discriminate]).
  assert (Hstrip : Str.strip (scheme +:+ h +:+ tail) = scheme +:+ h +:+ t).
  { unfold Str.strip. rewrite lstrip_clean.
    - rewrite rstrip_append; rewrite Hht; [reflexivity | exact Hne'].
    - destruct Hs as [-> | [-> | ->]]; try reflexivity.
      rewrite append_nil_l. destruct h as [|c h]; [congruence|].
      rewrite append_cons. simpl starts_clean. simpl in Hp.
      apply andb_true_iff in Hp as [Hc _]. unfold plain_host_char in Hc.
      now apply andb_true_iff in Hc as [Hc _]. }
  assert (Hfull : forall x, Str.is_empty (scheme +:+ h +:+ x) = false).
  { intros x. destruct Hs as [-> | [-> | ->]]; try reflexivity.
    rewrite append_nil_l. destruct h; [congruence | reflexivity]. }
  unfold extract_domain_from_url. rewrite Hfull, Hstrip, Hfull.
  assert (Hhost : Url.hostname
                    (if Str.startswith "http://" (scheme +:+ h +:+ t)
                        || Str.startswith "https://" (scheme +:+ h +:+ t)
                     then scheme +:+ h +:+ t else "http://" +:+ (scheme +:+ h +:+ t))
                  = Returns (Some (Str.lower h))).
  { destruct Hs as [-> | [-> | ->]].
    - rewrite append_nil_l.
      destruct (host_and_tail_no_scheme h t Hp Htail) as [-> ->]. simpl orb. cbv iota.
      apply (hostname_with_tail "http://"); auto.
    - change (Str.startswith "http://" ("http://" +:+ h +:+ t)) with true. simpl orb.
      cbv iota. apply hostname_with_tail; auto.
    - change (Str.startswith "https://" ("https://" +:+ h +:+ t)) with true.
      rewrite orb_true_r. apply hostname_with_tail; auto. }
  rewrite Hhost, lower_idem. apply url_fallback_is_last_two_labels.
Qed.

Lemma extract_domain_of_acme_page :
  extract_domain_from_url None ("https://" +:+ "www.Acme.com" +:+ "/about?x=1")
  = last_two_labels (Str.lower "www.Acme.com").
Proof.
  apply extract_domain_from_url_forms;
    [right; now right | reflexivity | discriminate | now right].
Defined.

(** ** The field count *)

Lemma count_step_comm (z1 z2 : string) (y : nat) :
  (if Str.is_empty z1 then (if Str.is_empty z2 then y else S y)
   else S (if Str.is_empty z2 then y else S y))
  = (if Str.is_empty z2 then (if Str.is_empty z1 then y else S y)
     else S (if Str.is_empty z1 then y else S y)).
Proof. now destruct (Str.is_empty z1), (Str.is_empty z2). Qed.

Lemma count_nonempty_fields_fresh (l : lead) (k v : string) :
  l !! k = None ->
  count_nonempty_fields (<[k := v]> l)
  = (if Str.is_empty v then count_nonempty_fields l else S (count_nonempty_fields l)).
Proof.
  intros Hk. unfold count_nonempty_fields.
  rewrite map_fold_insert_L; [reflexivity | | exact Hk].
  intros. apply count_step_comm.
Qed.

(** X21.  [count_nonempty_fields] counts the entries whose value is not the
    empty string: it is 0 for the empty record, and assigning a value to a
    key changes it by what the new value counts (1 if not empty) minus what
    the old one counted (1 if there and not empty). *)
Theorem count_nonempty_fields_insert (l : lead) (k v : string) :
  count_nonempty_fields ∅ = 0%nat
  /\ (count_nonempty_fields (<[k := v]> l) + (if truthy (l !! k) then 1 else 0)
      = count_nonempty_fields l + (if Str.is_empty v then 0 else 1))%nat.
Proof.
  split; [reflexivity|].
  destruct (l !! k) as [old|] eqn:Hk.
  - assert (Hl : count_nonempty_fields l
                 = count_nonempty_fields (<[k := old]> (delete k l))).
    { rewrite insert_delete_eq. now rewrite insert_id. }
    assert (Hv : count_nonempty_fields (<[k := v]> l)
                 = count_nonempty_fields (<[k := v]> (delete k l))).
    { now rewrite insert_delete_eq. }
    rewrite Hv, Hl.
    rewrite !count_nonempty_fields_fresh by apply lookup_delete_eq.
    simpl. destruct old as [|c s], (Str.is_empty v); simpl; lia.
  - rewrite (count_nonempty_fields_fresh l k v Hk). simpl.
    destruct (Str.is_empty v); lia.
Qed.

(** ** What [normalize] returns *)

Lemma sub_spaces_only_spaces (b : bool) (s : string) :
  Str.all (fun c => negb (Chars.is_space c) || Ascii.eqb c " ") (Str.sub_spaces b s) = true.
Proof.
  revert b. induction s as [|c s IH]; intros b; simpl; [reflexivity|].
  destruct (Chars.is_space c) eqn:Hc.
  - destruct b; [apply IH|]. simpl. apply IH.
  - simpl. now rewrite Hc, IH.
Qed.

Lemma lower_only_spaces (s : string) :
  Str.all (fun c => negb (Chars.is_space c) || Ascii.eqb c " ") s = true ->
  Str.all (fun c => negb (Chars.is_space c) || Ascii.eqb c " ") (Str.lower s) = true.
Proof.
  induction s as [|c s IH]; simpl; [reflexivity|].
  rewrite !andb_true_iff. intros [Hc Hs]. split; [|now apply IH].
  revert Hc. each_char c; vm_compute; congruence.
Qed.

(** X27.  What [normalize] returns is in normal form: it has no white space
    at either end, its only white-space characters are single spaces, between
    two other characters, and it is in lower case.  Stripping it, collapsing
    its white space or lowering it again gives it back. *)
Theorem normalize_normal_form (x : pyvalue) :
  let n := normalize x in
  Str.strip n = n
  /\ Str.sub_spaces false n = n
  /\ Str.lower n = n
  /\ Str.all (fun c => negb (Chars.is_space c) || Ascii.eqb c " ") n = true.
Proof.
  cbv zeta.
  assert (H : forall s,
            let n := Str.lower (Str.sub_spaces false (Str.strip s)) in
            Str.strip n = n /\ Str.sub_spaces false n = n /\ Str.lower n = n
            /\ Str.all (fun c => negb (Chars.is_space c) || Ascii.eqb c " ") n = true).
  { intros s. cbv zeta. set (t := Str.strip s).
    assert (Hstart : starts_clean t = true)
      by apply starts_clean_rstrip, starts_clean_lstrip.
    assert (Hend : Str.rstrip t = t) by apply rstrip_idem.
    set (u := Str.sub_spaces false t).
    assert (Hu : Str.strip u = u).
    { unfold Str.strip. rewrite lstrip_clean by now apply starts_clean_sub_spaces.
      now apply rstrip_sub_spaces. }
    split; [now rewrite strip_lower, Hu|].
    split; [rewrite sub_spaces_lower; unfold u; now rewrite sub_spaces_idem|].
    split; [apply lower_idem|].
    apply lower_only_spaces, sub_spaces_only_spaces. }
  destruct x as [|s|shown]; [repeat split | apply H | apply H].
Qed.

(** ** The case of an e-mail address *)

Lemma is_empty_lower (s : string) : Str.is_empty (Str.lower s) = Str.is_empty s.
Proof. now destruct s. Qed.

(** X28.  The case of an e-mail address does not count: lowering the
    address changes neither the domain extracted from it nor the key under
    which [dedupe_leads] groups the record. *)
Theorem email_case_does_not_count (L : lead) (email : string) :
  extract_domain_from_email (Str.lower email) = extract_domain_from_email email
  /\ email_key (<["email" := Str.lower email]> L) = email_key (<["email" := email]> L)
  /\ (forall domain,
        is_personal_email_domain (Str.lower domain) = is_personal_email_domain domain).
Proof.
  split; [|split].
  - unfold extract_domain_from_email.
    now rewrite is_empty_lower, strip_lower, lower_idem.
  - unfold email_key. rewrite !lookup_insert_eq. simpl. unfold normalize, py_str.
    now rewrite strip_lower, sub_spaces_lower, lower_idem.
  - intros domain. unfold is_personal_email_domain.
    now rewrite is_empty_lower, lower_idem.
Qed.

(** ** The breakdown *)




(** ** Which record of a group [dedupe_leads] keeps *)

Section FirstRichest.
Context {K : Type} `{EqDecision K}.
Variable key : lead -> K.

Lemma first_richest_snoc (p : list lead) (v x : lead) :
  first_richest key p v ->
  (key x = key v -> (count_nonempty_fields x <= count_nonempty_fields v)%nat) ->
  first_richest key (p ++ [x]) v.
Proof.
  intros (pre & post & -> & Hpre & Hpost) Hx.
  exists pre, (post ++ [x])%list. split; [now rewrite <- app_assoc|].
  split; [exact Hpre|]. intros L HL Hk. apply in_app_iff in HL as [HL | [<- | []]]; auto.
Qed.

Lemma first_richest_new (p : list lead) (x : lead) :
  (forall L, In L p -> key L = key x ->
     (count_nonempty_fields L < count_nonempty_fields x)%nat) ->
  first_richest key (p ++ [x]) x.
Proof. intros Hp. exists p, []. split; [reflexivity|]. split; [exact Hp | intros L []]. Qed.

Lemma grouped_step (p : list lead) (d : list (K * lead)) (x : lead) :
  grouped key p d -> grouped key (p ++ [x]) (keep_richer (key x) x d).
Proof.
  intros [Hsome Hnone]. unfold keep_richer.
  assert (Hset : (forall L, In L p -> key L = key x ->
                    (count_nonempty_fields L < count_nonempty_fields x)%nat) ->
                 grouped key (p ++ [x]) (OrderedDict.set (key x) x d)).
  { intros Hp. split.
    - intros k v. destruct (decide (k = key x)) as [->|Hne].
      + rewrite get_set_eq. intros [= <-]. split; [reflexivity|].
        now apply first_richest_new.
      + rewrite get_set_ne by exact Hne. intros Hk.
        destruct (Hsome k v Hk) as [Hkv Hf]. split; [exact Hkv|].
        apply first_richest_snoc; [exact Hf|]. intros Hx. congruence.
    - intros k. destruct (decide (k = key x)) as [->|Hne].
      + now rewrite get_set_eq.
      + rewrite get_set_ne by exact Hne. intros Hk L HL.
        apply in_app_iff in HL as [HL | [<- | []]]; [now apply Hnone | congruence]. }
  destruct (OrderedDict.get (key x) d) as [existing|] eqn:Hget.
  - destruct (Hsome _ _ Hget) as [Hke (pre & post & Hp & Hpre & Hpost)].
    destruct (count_nonempty_fields existing <? count_nonempty_fields x)%nat eqn:Hlt.
    + apply Nat.ltb_lt in Hlt. apply Hset. intros L HL Hk.
      rewrite Hp in HL. rewrite <- Hke in Hk.
      apply in_app_iff in HL as [HL | [<- | HL]].
      * pose proof (Hpre L HL Hk). lia.
      * exact Hlt.
      * pose proof (Hpost L HL Hk). lia.
    + apply Nat.ltb_ge in Hlt. split.
      * intros k v Hk. destruct (Hsome k v Hk) as [Hkv Hf]. split; [exact Hkv|].
        apply first_richest_snoc; [exact Hf|]. intros Hx.
        assert (v = existing) by congruence. subst v. exact Hlt.
      * intros k Hk L HL. apply in_app_iff in HL as [HL | [<- | []]];
          [now apply Hnone | congruence].
  - apply Hset. intros L HL Hk. now elim (Hnone _ Hget L HL).
Qed.

Lemma grouped_fold (xs : list lead) :
  forall p d, grouped key p d -> grouped key (p ++ xs) (group key xs d).
Proof.
  induction xs as [|x xs IH]; intros p d Hd; simpl.
  - now rewrite app_nil_r.
  - replace (p ++ x :: xs)%list with ((p ++ [x]) ++ xs)%list
      by now rewrite <- app_assoc.
    apply IH. now apply grouped_step.
Qed.

Lemma In_get (k : K) (v : lead) (d : list (K * lead)) :
  List.NoDup (OrderedDict.keys d) -> In (k, v) d -> OrderedDict.get k d = Some v.
Proof.
  induction d as [|[k' v'] d IH]; simpl; [intros _ []|].
  intros Hn [[= -> ->] | Hin].
  - now destruct (decide (k = k)).
  - inversion Hn as [|? ? Hk' Hn']; subst.
    destruct (decide (k' = k)) as [->|]; [|now apply IH].
    elim Hk'. apply in_map_iff. now exists (k, v).
Qed.

Lemma group_first_richest (xs : list lead) (v : lead) :
  In v (OrderedDict.values (group key xs [])) -> first_richest key xs v.
Proof.
  intros Hv. apply in_map_iff in Hv as ([k v'] & Hv' & Hin). simpl in Hv'. subst v'.
  destruct (group_from_nil key xs) as ([_ Hn] & _). cbv zeta in Hn.
  apply In_get in Hin; [|exact Hn].
  assert (Hg : grouped key ([] ++ xs) (group key xs [])).
  { apply grouped_fold. split; [intros ? ? [=] | intros ? _ ? []]. }
  destruct Hg as [Hsome _]. now apply (Hsome k v).
Qed.
End FirstRichest.

Lemma filter_decompose {A} (f : A -> bool) (X a b : list A) (v : A) :
  List.filter f X = (a ++ v :: b)%list ->
  exists pre post, X = (pre ++ v :: post)%list
                   /\ List.filter f pre = a /\ List.filter f post = b.
Proof.
  revert a. induction X as [|x X IH]; intros a; simpl.
  - destruct a; discriminate.
  - destruct (f x) eqn:Hx.
    + destruct a as [|y a]; simpl.
      * intros [= -> <-]. exists [], X. now repeat split.
      * intros [= <- H]. destruct (IH a H) as (pre & post & -> & Hpre & Hpost).
        exists (x :: pre), post. simpl. rewrite Hx, Hpre. now repeat split.
    + intros H. destruct (IH a H) as (pre & post & -> & Hpre & Hpost).
      exists (x :: pre), post. simpl. rewrite Hx. now repeat split.
Qed.

Lemma has_email_b_key (L L' : lead) :
  email_key L = email_key L' -> has_email_b L = has_email_b L'.
Proof. unfold has_email_b. now intros ->. Qed.

(** X29.  Which record of a group stays: every record that [dedupe_leads]
    returns is the first of the richest of its group in the input.  No
    earlier record of the group has as many filled fields, and no later one
    has more; on a tie the first seen is kept. *)
Theorem dedupe_leads_keeps_first_richest (X : list lead) :
  Forall (first_richest dedupe_key X) (dedupe_leads X).
Proof.
  rewrite dedupe_leads_groups, Forall_app.
  assert (Hgen : forall (K : Type) (Hdec : EqDecision K) (key : lead -> K)
                   (f : lead -> bool),
             (forall L L', f L' = true -> dedupe_key L = dedupe_key L' ->
                           f L = true /\ key L = key L') ->
             Forall (first_richest dedupe_key X)
               (OrderedDict.values (group key (List.filter f X) []))).
  { intros K Hdec key f Hf. rewrite List.Forall_forall. intros v Hv.
    assert (Hfv : f v = true).
    { destruct (group_from_nil key (List.filter f X)) as (_ & Hin & _).
      cbv zeta in Hin. rewrite List.Forall_forall in Hin.
      apply Hin in Hv. now apply filter_In in Hv. }
    apply group_first_richest in Hv as (a & b & Hab & Ha & Hb).
    apply filter_decompose in Hab as (pre & post & -> & <- & <-).
    exists pre, post. split; [reflexivity|]. split.
    - intros L HL Hk. destruct (Hf L v Hfv Hk) as [HfL Hkey].
      apply Ha; [|exact Hkey]. apply filter_In. now split.
    - intros L HL Hk. destruct (Hf L v Hfv Hk) as [HfL Hkey].
      apply Hb; [|exact Hkey]. apply filter_In. now split. }
  split.
  - apply Hgen. intros L L' HL' [= Hk _]. split; [|exact Hk].
    now rewrite (has_email_b_key L L' Hk).
  - apply Hgen. intros L L' HL' Hk. apply negb_true_iff in HL'.
    unfold dedupe_key in Hk. injection Hk as Hk Hnd.
    pose proof (has_email_b_key L L' Hk) as Hb. rewrite HL' in Hb, Hnd.
    rewrite Hb in Hnd. split; [now rewrite Hb | exact Hnd].
Qed.
